(** * kj/logging.c++ : description builder, faults and context chain

    A shallow embedding of [src/c++/src/kj/logging.c++].

    - C strings ([const char] pointers) are lists of characters; the byte
      after the last element is the terminating NUL (a NUL inside the list
      terminates earlier), and pointers into a C string are offsets ([nat]).
    - [uint depth] is a 32-bit unsigned counter: its wrap-around is written
      out.  [size_t] counters are [nat]: they are bounded by the sizes of
      objects that exist in memory.
    - Calls on the exception callback are effects: they are threaded through
      a small monad [M] over the [World] (active callback plus what the
      terminal sink has received). *)

From Stdlib Require Import ZArith Ascii String List Bool Lia.
From stdpp Require Import prelude pretty.
Import ListNotations.

#[local] Open Scope nat_scope.

Notation "x <- y ; z" := (y ≫= (λ x : _, z))
  (at level 20, y at level 100, z at level 200, only parsing) : stdpp_scope.

(** ** Characters and C strings *)

Abbreviation cstr := (list ascii) (only parsing).
Abbreviation String := (list ascii) (only parsing).

Definition lit (s : string) : list ascii := list_ascii_of_string s.

Definition NUL : ascii := ascii_of_nat 0.
Definition NEWLINE : ascii := ascii_of_nat 10.
Definition DQUOTE : ascii := ascii_of_nat 34.
Definition LPAREN : ascii := ascii_of_nat 40.
Definition RPAREN : ascii := ascii_of_nat 41.
Definition COMMA : ascii := ascii_of_nat 44.
Definition EQUALS : ascii := ascii_of_nat 61.
Definition BACKSLASH : ascii := ascii_of_nat 92.

Definition ch_eqb (a b : ascii) : bool := Ascii.eqb a b.

(** [*p] for a pointer at offset [p] of the C string [s]: the characters of
    [s], then the terminator. *)
Definition deref (s : cstr) (p : nat) : ascii := default NUL (s !! p).

(** [isspace] of <ctype.h> in the C locale: space, \t, \n, \v, \f, \r. *)
Definition isspace (c : ascii) : bool :=
  let n := nat_of_ascii c in
  (n =? 32) || ((9 <=? n) && (n <=? 13)).

(** [strlen]: number of characters before the first NUL. *)
Fixpoint strlen (s : cstr) : nat :=
  match s with
  | [] => 0
  | c :: s' => if ch_eqb c NUL then 0 else S (strlen s')
  end.

(** [StringPtr] built from a [const char] pointer: the characters up to the
    terminator. *)
Definition StringPtr (s : cstr) : String := take (strlen s) s.

(** [while (isspace( *p )) ++p;] walking the memory [rest] that starts at
    offset [p]. *)
Fixpoint skip_space_from (rest : cstr) (p : nat) : nat :=
  match rest with
  | c :: rest' => if isspace c then skip_space_from rest' (S p) else p
  | [] => p
  end.

Definition skip_space (s : cstr) (p : nat) : nat :=
  skip_space_from (drop p s) p.

(** ** [ArrayPtr<const char>]: a view (offset, size) into the macro text *)

Record ArrayPtr := mkArrayPtr { ptr : nat; size_ : nat }.

(** [arrayPtr(begin, end)] *)
Definition arrayPtr (begin_ end_ : nat) : ArrayPtr :=
  {| ptr := begin_; size_ := end_ - begin_ |}.

(** Modelled from the spec: the default-constructed [ArrayPtr] that
    [KJ_STACK_ARRAY] (kj/array.h, not part of the sources at hand) leaves in
    every slot of [argNames]; the spec calls it an empty name. *)
Definition nullArrayPtr : ArrayPtr := {| ptr := 0; size_ := 0 |}.

(** The characters a view denotes. *)
Definition span_text (s : cstr) (a : ArrayPtr) : String :=
  take (size_ a) (drop (ptr a) s).

(** ** The argument-list scanner (lines 59-94 of the source) *)

Definition UINT_MOD : Z := 2 ^ 32.

Record ScanState := mkScan {
  index : nat;
  start : nat;
  pos : nat;
  depth : Z;
  quoted : bool;
  argNames : list ArrayPtr
}.

Definition set_pos (st : ScanState) (p : nat) : ScanState :=
  mkScan (index st) (start st) p (depth st) (quoted st) (argNames st).
Definition set_depth (st : ScanState) (d : Z) : ScanState :=
  mkScan (index st) (start st) (pos st) d (quoted st) (argNames st).
Definition set_quoted (st : ScanState) (q : bool) : ScanState :=
  mkScan (index st) (start st) (pos st) (depth st) q (argNames st).

(** [if (index < argValues.size()) argNames[index] = arrayPtr(start, end_);] *)
Definition store_name (n : nat) (st : ScanState) (end_ : nat) : list ArrayPtr :=
  if index st <? n then <[index st := arrayPtr (start st) end_]> (argNames st)
  else argNames st.

(** The body of [while (char c = *pos++)], entered with [pos] already
    advanced past [c]. *)
Definition scan_body (s : cstr) (n : nat) (c : ascii) (st : ScanState) : ScanState :=
  if quoted st then
    if ch_eqb c BACKSLASH && negb (ch_eqb (deref s (pos st)) NUL) then
      set_pos st (S (pos st))
    else if ch_eqb c DQUOTE then
      set_quoted st false
    else st
  else
    if ch_eqb c LPAREN then
      set_depth st ((depth st + 1) mod UINT_MOD)%Z
    else if ch_eqb c RPAREN then
      set_depth st ((depth st - 1) mod UINT_MOD)%Z
    else if ch_eqb c DQUOTE then
      set_quoted st true
    else if ch_eqb c COMMA && (depth st =? 0)%Z then
      let names := store_name n st (pos st - 1) in
      let p := skip_space s (pos st) in
      mkScan (S (index st)) p p (depth st) (quoted st) names
    else st.

(** The loop itself.  Every iteration advances [pos], so [S (length s)]
    iterations always suffice (see [scan_loop_total]). *)
Fixpoint scan_loop (fuel : nat) (s : cstr) (n : nat) (st : ScanState)
  : option ScanState :=
  match fuel with
  | O => None
  | S fuel' =>
      let c := deref s (pos st) in
      let st1 := set_pos st (S (pos st)) in
      if ch_eqb c NUL then Some st1
      else scan_loop fuel' s n (scan_body s n c st1)
  end.

(** State on entry to the loop (lines 60-65). *)
Definition scan_init (s : cstr) (n : nat) : ScanState :=
  let start0 := skip_space s 0 in
  mkScan 0 start0 start0 0%Z false (replicate n nullArrayPtr).

(** Lines 90-93: the last segment is stored and counted. *)
Definition scan_finish (n : nat) (st : ScanState) : ScanState :=
  mkScan (S (index st)) (start st) (pos st) (depth st) (quoted st)
         (store_name n st (pos st - 1)).

(** The whole of lines 60-93 for [n = argValues.size() > 0]. *)
Definition scanArgs (s : cstr) (n : nat) : option ScanState :=
  scan_finish n <$> scan_loop (S (length s)) s n (scan_init s n).

Definition names_text (s : cstr) (st : ScanState) : list String :=
  span_text s <$> argNames st.


(** [strchr(s, c)] for a character [c] other than NUL: offset of the first
    [c] before the terminator, or a null pointer. *)
Fixpoint strchr (s : cstr) (c : ascii) : option nat :=
  match s with
  | [] => None
  | x :: s' =>
      if ch_eqb x NUL then None
      else if ch_eqb x c then Some 0
      else S <$> strchr s' c
  end.

(** Lines 107-111: the SYSCALL pre-processing of [code].  The result is the
    memory the advanced [code] pointer points at. *)
Definition strip_assignment (code : cstr) : cstr :=
  match strchr code EQUALS with
  | Some equalsPos =>
      if negb (ch_eqb (deref code (S equalsPos)) EQUALS)
      then drop (skip_space code (S equalsPos)) code
      else code
  | None => code
  end.

(** ** Severities (lines 32-45 of the source) *)

(** Modelled from the spec: the enumeration [Log::Severity] is declared in
    kj/logging.h (not part of the sources at hand); the spec lists its
    values in this order, which is the order of [SEVERITY_STRINGS]. *)
Inductive Severity := INFO | WARNING | ERROR | FATAL | DEBUG.

(** [static_cast<uint>(severity)] *)
Definition severity_index (severity : Severity) : nat :=
  match severity with
  | INFO => 0 | WARNING => 1 | ERROR => 2 | FATAL => 3 | DEBUG => 4
  end.

(** [Log::minSeverity] as initialised on line 32. *)
Definition minSeverity : Severity := WARNING.

Definition SEVERITY_STRINGS : list cstr :=
  [lit "info"; lit "warning"; lit "error"; lit "fatal"; lit "debug"].

(** [KJ_STRINGIFY(Log::Severity)]: [arrayPtr(s, strlen(s))] for the entry
    [s] of the table; an index outside the table would read past it. *)
Definition KJ_STRINGIFY (severity : Severity) : option String :=
  s <- SEVERITY_STRINGS !! severity_index severity;
  Some (StringPtr s).

(** [Log::getOsErrorNumber] (lines 226-229), [errno] and the platform's
    [EINTR] being given. *)
Definition getOsErrorNumber (EINTR errno : Z) : Z :=
  let result := errno in
  if (result =? EINTR)%Z then (-1)%Z else result.

(** ** Exceptions, callbacks and the world *)

Inductive DescriptionStyle := LOG | ASSERTION | SYSCALL.

Definition style_eqb (a b : DescriptionStyle) : bool :=
  match a, b with
  | LOG, LOG | ASSERTION, ASSERTION | SYSCALL, SYSCALL => true
  | _, _ => false
  end.

(** Modelled from the spec: the exception value of kj/exception.h (not part
    of the sources at hand): nature, durability, origin, description and an
    ordered list of context annotations to which [wrapContext] appends. *)
Inductive Nature := REGULAR | OS_ERROR.
Inductive Durability := PERMANENT | TEMPORARY.

Record Annotation := mkAnnotation {
  ann_file : cstr;
  ann_line : Z;
  ann_description : String
}.

Record Exception := mkException {
  nature : Nature;
  durability : Durability;
  exc_file : cstr;
  exc_line : Z;
  description : String;
  context : list Annotation
}.

Definition wrapContext (e : Exception) (file : cstr) (line : Z) (desc : String)
  : Exception :=
  mkException (nature e) (durability e) (exc_file e) (exc_line e)
              (description e) (context e ++ [mkAnnotation file line desc]).

(** What a [KJ_CONTEXT] node captured: the arguments its [addTo] passes to
    [Log::addContextToInternal]. *)
Record ContextInfo := mkContextInfo {
  ctx_file : cstr;
  ctx_line : Z;
  ctx_macroArgs : cstr;
  ctx_argValues : list String
}.

(** An [ExceptionCallback] object: the terminal sink, or a [Log::Context]
    holding the reference [next]. *)
Inductive Callback :=
| RootSink
| ContextNode (next : Callback) (info : ContextInfo).

(** What the terminal sink has been handed. *)
Inductive SinkCall :=
| SinkRecoverable (e : Exception)
| SinkFatal (e : Exception)
| SinkLog (text : String).

Record World := mkWorld {
  active : Callback;        (* what getExceptionCallback() returns *)
  sink : list SinkCall
}.

(** A computation returns, terminates the process ([abort()]), or has no
    defined behaviour (null dereference, write past a buffer, no fuel). *)
Inductive Result (A : Type) :=
| Returned (a : A) (w : World)
| Aborted (w : World)
| Undefined.
Arguments Returned {A} a w.
Arguments Aborted {A} w.
Arguments Undefined {A}.

Definition M (A : Type) : Type := World -> Result A.

#[global] Instance M_ret : MRet M := fun A a w => Returned a w.
#[global] Instance M_bind : MBind M := fun A B k c w =>
  match c w with
  | Returned a w' => k a w'
  | Aborted w' => Aborted w'
  | Undefined => Undefined
  end.

Definition undefined {A} : M A := fun _ => Undefined.
Definition abort {A} : M A := fun w => Aborted w.
Definition getExceptionCallback : M Callback := fun w => Returned (active w) w.
Definition setExceptionCallback (cb : Callback) : M unit :=
  fun w => Returned tt (mkWorld cb (sink w)).
Definition sink_put (c : SinkCall) : M unit :=
  fun w => Returned tt (mkWorld (active w) (sink w ++ [c])).

(** Virtual [logMessage]; the [ContextNode] case is
    [Log::Context::logMessage] (lines 242-246). *)
Fixpoint logMessage (cb : Callback) (text : String) : M unit :=
  match cb with
  | RootSink => sink_put (SinkLog text)
  | ContextNode next _ => logMessage next text
  end.

(** ** The output buffer of [makeDescription] *)

Record Buffer := mkBuffer {
  chars : list ascii;       (* the characters of [result] *)
  cursor : nat              (* [pos - result.begin()] *)
}.

(** [heapString(size)]: [size] characters, not yet written. *)
Definition heapString (size : nat) : Buffer := mkBuffer (replicate size NUL) 0.

(** Modelled from the spec: [internal::fill] of kj/string.h (not part of the
    sources at hand), which the spec describes as filling sequentially: the
    piece is copied at the cursor and the cursor advanced.  A write that
    would pass the end of the buffer has no defined behaviour. *)
Definition fill (b : Buffer) (piece : String) : option Buffer :=
  if cursor b + length piece <=? length (chars b) then
    Some (mkBuffer (take (cursor b) (chars b) ++ piece
                      ++ drop (cursor b + length piece) (chars b))
                   (cursor b + length piece))
  else None.

Definition expected : String := lit "expected ".
Definition sep : String := lit " = ".
Definition delim : String := lit "; ".
Definition colon : String := lit ": ".

(** [i > 0 || style != LOG] *)
Definition wants_delim (style : DescriptionStyle) (i : nat) : bool :=
  (0 <? i) || negb (style_eqb style LOG).

(** [argNames[i].size() > 0] and [argNames[i][0]] is not a double quote. *)
Definition has_name (macroArgs : cstr) (name : ArrayPtr) : bool :=
  (0 <? size_ name) && negb (ch_eqb (deref macroArgs (ptr name)) DQUOTE).

(** [argNames[i]] *)
Definition name_at (argNames : list ArrayPtr) (i : nat) : ArrayPtr :=
  default nullArrayPtr (argNames !! i).

(** Lines 140-149. *)
Definition head_size (style : DescriptionStyle) (codeArray sysErrorArray : String)
  : nat :=
  match style with
  | LOG => 0
  | ASSERTION => length expected + length codeArray
  | SYSCALL => length codeArray + length colon + length sysErrorArray
  end.

(** Lines 151-159, iterations [i], [i+1], ... over the remaining values. *)
Fixpoint args_size (style : DescriptionStyle) (macroArgs : cstr)
    (argNames : list ArrayPtr) (i : nat) (values : list String)
    (totalSize : nat) : nat :=
  match values with
  | [] => totalSize
  | v :: values' =>
      let t1 := if wants_delim style i then totalSize + length delim
                else totalSize in
      let t2 := if has_name macroArgs (name_at argNames i)
                then t1 + (size_ (name_at argNames i) + length sep)
                else t1 in
      args_size style macroArgs argNames (S i) values' (t2 + length v)
  end.

(** Lines 164-173. *)
Definition fill_head (style : DescriptionStyle) (codeArray sysErrorArray : String)
    (b : Buffer) : option Buffer :=
  match style with
  | LOG => Some b
  | ASSERTION => b1 <- fill b expected; fill b1 codeArray
  | SYSCALL =>
      b1 <- fill b codeArray; b2 <- fill b1 colon; fill b2 sysErrorArray
  end.

(** Lines 174-182. *)
Fixpoint fill_args (style : DescriptionStyle) (macroArgs : cstr)
    (argNames : list ArrayPtr) (i : nat) (values : list String)
    (b : Buffer) : option Buffer :=
  match values with
  | [] => Some b
  | v :: values' =>
      b1 <- (if wants_delim style i then fill b delim else Some b);
      b2 <- (if has_name macroArgs (name_at argNames i)
             then b' <- fill b1 (span_text macroArgs (name_at argNames i));
                  fill b' sep
             else Some b1);
      b3 <- fill b2 v;
      fill_args style macroArgs argNames (S i) values' b3
  end.

(** The sizing pass (lines 139-159). *)
Definition sizing_pass (style : DescriptionStyle) (codeArray sysErrorArray : String)
    (macroArgs : cstr) (argNames : list ArrayPtr) (argValues : list String)
  : nat :=
  args_size style macroArgs argNames 0 argValues
            (head_size style codeArray sysErrorArray).

(** The fill pass (lines 161-182) on the freshly allocated [result]. *)
Definition fill_pass (style : DescriptionStyle) (codeArray sysErrorArray : String)
    (macroArgs : cstr) (argNames : list ArrayPtr) (argValues : list String)
    (result : Buffer) : option Buffer :=
  b <- fill_head style codeArray sysErrorArray result;
  fill_args style macroArgs argNames 0 argValues b.

Section Logging.

(** The platform: the text [strerror_r] produces for an error number, and
    the [__FILE__] under which logging.c++ was compiled. *)
Variable strerror_r : Z -> cstr.
Variable FILE__ : cstr.

(** [__LINE__] at its occurrence in the parse-failure message. *)
Definition LINE__ : nat := 97.

(** The [str(...)] of lines 97-98. *)
Definition parse_failure_text (n : nat) (macroArgs : cstr) : String :=
  StringPtr FILE__ ++ lit ":" ++ lit (pretty LINE__)
    ++ lit ": Failed to parse logging macro args into "
    ++ lit (pretty n) ++ lit " names: " ++ StringPtr macroArgs ++ [NEWLINE].

(** Lines 57-100: the names of the arguments. *)
Definition parse_names (macroArgs : cstr) (n : nat) : M (list ArrayPtr) :=
  if 0 <? n then
    match scanArgs macroArgs n with
    | None => undefined
    | Some st =>
        _ <- (if negb (index st =? n) then
                cb <- getExceptionCallback;
                logMessage cb (parse_failure_text n macroArgs)
              else mret tt);
        mret (argNames st)
    end
  else mret (replicate n nullArrayPtr).

(** Lines 102-112; [strchr] on a null [code] has no defined behaviour. *)
Definition preprocess_code (style : DescriptionStyle) (code : option cstr)
  : M (option cstr) :=
  match style, code with
  | SYSCALL, Some c => mret (Some (strip_assignment c))
  | SYSCALL, None => undefined
  | _, _ => mret code
  end.

(** Lines 114-116. *)
Definition effective_style (style : DescriptionStyle) (code : option cstr)
  : DescriptionStyle :=
  if style_eqb style ASSERTION && negb (bool_decide (is_Some code))
  then LOG else style.

(** Line 120. *)
Definition code_array (style : DescriptionStyle) (code : option cstr)
  : M String :=
  if style_eqb style LOG then mret []
  else match code with
       | Some c => mret (StringPtr c)
       | None => undefined
       end.

(** Lines 125-137. *)
Definition sys_error_array (style : DescriptionStyle) (errorNumber : Z)
  : String :=
  if style_eqb style SYSCALL then StringPtr (strerror_r errorNumber) else [].

Definition makeDescription (style : DescriptionStyle) (code : option cstr)
    (errorNumber : Z) (macroArgs : cstr) (argValues : list String)
  : M String :=
  argNames <- parse_names macroArgs (length argValues);
  code <- preprocess_code style code;
  let style := effective_style style code in
  codeArray <- code_array style code;
  let sysErrorArray := sys_error_array style errorNumber in
  let totalSize :=
    sizing_pass style codeArray sysErrorArray macroArgs argNames argValues in
  match fill_pass style codeArray sysErrorArray macroArgs argNames argValues
                  (heapString totalSize) with
  | Some result => mret (chars result)
  | None => undefined
  end.

(** ** Exception callbacks *)

(** [Log::addContextToInternal] (lines 221-224). *)
Definition addContextToInternal (e : Exception) (file : cstr) (line : Z)
    (macroArgs : cstr) (argValues : list String) : M Exception :=
  desc <- makeDescription LOG None 0 macroArgs argValues;
  mret (wrapContext e file line desc).

(** Modelled from the spec: [Context::addTo] is pure virtual in
    logging.c++ and implemented in kj/logging.h (not part of the sources at
    hand); the spec has it append the node's annotation (file, line, a
    builder-produced message), which is what [addContextToInternal] does
    with what the node captured. *)
Definition addTo (info : ContextInfo) (e : Exception) : M Exception :=
  addContextToInternal e (ctx_file info) (ctx_line info)
                       (ctx_macroArgs info) (ctx_argValues info).

(** Virtual [onRecoverableException]; the [ContextNode] case is
    [Log::Context::onRecoverableException] (lines 234-237).  The terminal
    sink records what it is handed and returns. *)
Fixpoint onRecoverableException (cb : Callback) (e : Exception) : M unit :=
  match cb with
  | RootSink => sink_put (SinkRecoverable e)
  | ContextNode next info =>
      e' <- addTo info e;
      onRecoverableException next e'
  end.

(** Virtual [onFatalException]; the [ContextNode] case is
    [Log::Context::onFatalException] (lines 238-241). *)
Fixpoint onFatalException (cb : Callback) (e : Exception) : M unit :=
  match cb with
  | RootSink => sink_put (SinkFatal e)
  | ContextNode next info =>
      e' <- addTo info e;
      onFatalException next e'
  end.

(** [Log::Context::Context()] (line 231): [next(getExceptionCallback())],
    then [registration( *this )].  Modelled from the spec: the scoped
    registration (kj/exception.h, not part of the sources at hand) makes
    the new node the active callback. *)
Definition Context_new (info : ContextInfo) : M Callback :=
  next <- getExceptionCallback;
  let this := ContextNode next info in
  _ <- setExceptionCallback this;
  mret this.

(** ** Faults *)

(** [Log::Fault]: the owned [exception] pointer, null once moved out. *)
Record Fault := mkFault { exception : option Exception }.

(** [Log::Fault::init] (lines 213-219). *)
Definition Fault_init (file : cstr) (line : Z) (nature : Nature)
    (errorNumber : Z) (condition : option cstr) (macroArgs : cstr)
    (argValues : list String) : M Fault :=
  desc <- makeDescription
            (match nature with OS_ERROR => SYSCALL | _ => ASSERTION end)
            condition errorNumber macroArgs argValues;
  mret (mkFault (Some (mkException nature PERMANENT file line desc []))).

(** The destructor of [Log::Fault] (lines 197-203). *)
Definition Fault_destroy (f : Fault) : M unit :=
  match exception f with
  | Some e =>
      cb <- getExceptionCallback;
      onRecoverableException cb e
  | None => mret tt
  end.

(** [Log::Fault::fatal] (lines 205-211).  Dereferencing a null
    [exception] has no defined behaviour; the store [exception = nullptr]
    is to an object no code runs on again. *)
Definition Fault_fatal (f : Fault) : M unit :=
  match exception f with
  | Some e =>
      cb <- getExceptionCallback;
      _ <- onFatalException cb e;
      abort
  | None => undefined
  end.

(** ** Logging *)

(** [Log::logInternal] (lines 190-195).  The callback is looked up and the
    description built before [logMessage] is called; the description never
    changes which callback is active, so the order of the two does not
    show. *)
Definition logInternal (file : cstr) (line : Z) (severity : Severity)
    (macroArgs : cstr) (argValues : list String) : M unit :=
  cb <- getExceptionCallback;
  desc <- makeDescription LOG None 0 macroArgs argValues;
  match KJ_STRINGIFY severity with
  | Some name =>
      logMessage cb (name ++ lit ": " ++ StringPtr file ++ lit ":"
                       ++ lit (pretty line) ++ lit ": " ++ desc ++ [NEWLINE])
  | None => undefined
  end.

End Logging.

(** ** Vocabulary of the specification *)

(** *** Rendering of the arguments *)

(** The text of one rendered argument: [name = value], or [value] alone. *)
Definition rendered_arg (macroArgs : cstr) (name : ArrayPtr) (v : String)
  : String :=
  if has_name macroArgs name then span_text macroArgs name ++ sep ++ v else v.

Definition name_prefix (macroArgs : cstr) (name : ArrayPtr) : String :=
  if has_name macroArgs name then span_text macroArgs name ++ sep else [].

(** The rendered arguments [i], [i+1], ... with their separators. *)
Fixpoint args_text (style : DescriptionStyle) (macroArgs : cstr)
    (argNames : list ArrayPtr) (i : nat) (values : list String) : String :=
  match values with
  | [] => []
  | v :: values' =>
      (if wants_delim style i then delim else [])
        ++ rendered_arg macroArgs (name_at argNames i) v
        ++ args_text style macroArgs argNames (S i) values'
  end.

(** The head of the message for each style. *)
Definition head_text (style : DescriptionStyle) (codeArray sysErrorArray : String)
  : String :=
  match style with
  | LOG => []
  | ASSERTION => expected ++ codeArray
  | SYSCALL => codeArray ++ colon ++ sysErrorArray
  end.

(** One argument as the specification renders it from the text of its name:
    [name = value] when the name is non-empty and does not start with a
    double quote, [value] alone otherwise. *)
Definition spec_rendered (name value : String) : String :=
  match name with
  | [] => value
  | c :: _ => if ch_eqb c DQUOTE then value else name ++ lit " = " ++ value
  end.

(** The rendered arguments joined with "; "; [lead] says whether the first
    one is preceded by the separator as well. *)
Fixpoint spec_args (lead : bool) (named_values : list (String * String))
  : String :=
  match named_values with
  | [] => []
  | (name, value) :: rest =>
      (if lead then lit "; " else []) ++ spec_rendered name value
        ++ spec_args true rest
  end.

(** Whether the first argument is preceded by the separator, if the style
    passed in alone decided it: not for LOG, always for ASSERTION and
    SYSCALL. *)
Definition lead_by_style (style : DescriptionStyle) : bool :=
  negb (style_eqb style LOG).

(** *** The tokenizer *)

(** Characters that neither nest, quote, split nor terminate. *)
Definition plain (c : ascii) : bool :=
  negb (ch_eqb c NUL || ch_eqb c COMMA || ch_eqb c LPAREN || ch_eqb c RPAREN
        || ch_eqb c DQUOTE).

(** Characters that leave a parenthesised group open and unquoted. *)
Definition inside_parens (c : ascii) : bool :=
  negb (ch_eqb c NUL || ch_eqb c LPAREN || ch_eqb c RPAREN || ch_eqb c DQUOTE).

(** Characters that leave a quoted region open, without escaping. *)
Definition inside_quotes (c : ascii) : bool :=
  negb (ch_eqb c NUL || ch_eqb c DQUOTE || ch_eqb c BACKSLASH).

(** Leading whitespace removed. *)
Fixpoint ltrim (e : String) : String :=
  match e with
  | c :: e' => if isspace c then ltrim e' else e
  | [] => []
  end.

(** Leading and trailing whitespace removed. *)
Definition trim (e : String) : String := rev (ltrim (rev (ltrim e))).

(** Expressions written one after the other with commas between them. *)
Fixpoint join_commas (es : list String) : cstr :=
  match es with
  | [] => []
  | [e] => e
  | e :: es' => e ++ COMMA :: join_commas es'
  end.

(** The tokenizer as the specification describes it, on the characters
    themselves: one pass with the nesting depth, the quoted flag and the
    segment read so far; a comma splits only at depth 0 outside quotes; in
    quotes a backslash takes the next character with it. *)
Fixpoint segments_from (depth : Z) (quoted : bool) (cur : String) (rest : cstr)
  : list String :=
  match rest with
  | [] => [cur]
  | c :: rest' =>
      if ch_eqb c NUL then [cur]
      else if quoted then
        if ch_eqb c BACKSLASH then
          match rest' with
          | c' :: rest'' =>
              if ch_eqb c' NUL then [cur ++ [c]]
              else segments_from depth true (cur ++ [c; c']) rest''
          | [] => [cur ++ [c]]
          end
        else segments_from depth (negb (ch_eqb c DQUOTE)) (cur ++ [c]) rest'
      else if ch_eqb c LPAREN then
        segments_from ((depth + 1) mod UINT_MOD)%Z false (cur ++ [c]) rest'
      else if ch_eqb c RPAREN then
        segments_from ((depth - 1) mod UINT_MOD)%Z false (cur ++ [c]) rest'
      else if ch_eqb c DQUOTE then
        segments_from depth true (cur ++ [c]) rest'
      else if ch_eqb c COMMA && (depth =? 0)%Z then
        cur :: segments_from depth false [] rest'
      else segments_from depth false (cur ++ [c]) rest'
  end.

(** The segments of a macro text, each without its leading whitespace. *)
Definition spec_segments (s : cstr) : list String :=
  ltrim <$> segments_from 0 false [] s.

(** The names [n] values get from a list of segments: missing ones are
    empty, surplus ones are dropped. *)
Definition names_for (n : nat) (segments : list String) : list String :=
  (fun i => default [] (segments !! i)) <$> seq 0 n.

(** The number of segments the scanner found; with no values there is no
    scan and there are no segments. *)
Definition segments_parsed (macroArgs : cstr) (n : nat) : nat :=
  if 0 <? n then from_option index 0 (scanArgs macroArgs n) else 0.

(** *** The pre-processing of the SYSCALL code *)

(** The code text as the specification words its pre-processing: everything
    up to and including the first [=] at nesting depth 0 that has no [=]
    next to it is removed, then the whitespace that follows. *)
Fixpoint spec_strip_from (prev : ascii) (depth : nat) (rest : cstr)
  : option cstr :=
  match rest with
  | [] => None
  | c :: rest' =>
      if ch_eqb c NUL then None
      else if ch_eqb c LPAREN then spec_strip_from c (S depth) rest'
      else if ch_eqb c RPAREN then spec_strip_from c (pred depth) rest'
      else if ch_eqb c EQUALS && (depth =? 0) && negb (ch_eqb prev EQUALS)
              && negb (ch_eqb (deref rest' 0) EQUALS)
           then Some (ltrim rest')
      else spec_strip_from c depth rest'
  end.

Definition spec_strip (code : cstr) : cstr :=
  default code (spec_strip_from NUL 0 code).

(** The pre-processing as the code performs it, in words: [code] is left
    alone when it has no [=] or when its first [=] is directly followed by
    another; otherwise what follows the first [=] is kept, less its leading
    whitespace. *)
Inductive first_equals_strip : cstr -> cstr -> Prop :=
| strip_no_equals code :
    EQUALS ∉ StringPtr code ->
    first_equals_strip code code
| strip_double_equals pre rest :
    EQUALS ∉ pre -> NUL ∉ pre ->
    first_equals_strip (pre ++ EQUALS :: EQUALS :: rest)
                       (pre ++ EQUALS :: EQUALS :: rest)
| strip_single_equals pre rest :
    EQUALS ∉ pre -> NUL ∉ pre -> deref rest 0 ≠ EQUALS ->
    first_equals_strip (pre ++ EQUALS :: rest) (ltrim rest).

(** *** What the terminal sink received *)

(** How often the terminal sink was handed an exception. *)
Definition is_recoverable (c : SinkCall) : bool :=
  match c with SinkRecoverable _ => true | _ => false end.
Definition is_fatal (c : SinkCall) : bool :=
  match c with SinkFatal _ => true | _ => false end.
Definition is_log (c : SinkCall) : bool :=
  match c with SinkLog _ => true | _ => false end.

Definition recoverable_count (calls : list SinkCall) : nat :=
  length (filter is_recoverable calls).
Definition fatal_count (calls : list SinkCall) : nat :=
  length (filter is_fatal calls).

(** The contexts of a callback chain, innermost first. *)
Fixpoint chain_infos (cb : Callback) : list ContextInfo :=
  match cb with
  | RootSink => []
  | ContextNode next info => info :: chain_infos next
  end.

(** *** The outcome of a run *)

(** What [makeDescription] computes, spelt out. *)
Section Outcome.

Variable strerror_r : Z -> cstr.
Variable FILE__ : cstr.

(** The views in [argNames] once lines 57-100 have run. *)
Definition parsed_names (macroArgs : cstr) (n : nat) : list ArrayPtr :=
  if 0 <? n
  then from_option argNames (replicate n nullArrayPtr) (scanArgs macroArgs n)
  else replicate n nullArrayPtr.

(** What the terminal sink has received once lines 57-100 have run. *)
Definition parse_sink (macroArgs : cstr) (n : nat) (calls : list SinkCall)
  : list SinkCall :=
  if segments_parsed macroArgs n =? n then calls
  else calls ++ [SinkLog (parse_failure_text FILE__ n macroArgs)].

(** The text of the description. *)
Definition description_text (style : DescriptionStyle) (code : option cstr)
    (errorNumber : Z) (macroArgs : cstr) (argValues : list String) : String :=
  let names := parsed_names macroArgs (length argValues) in
  match style, code with
  | LOG, _ | ASSERTION, None => args_text LOG macroArgs names 0 argValues
  | ASSERTION, Some c =>
      expected ++ StringPtr c ++ args_text ASSERTION macroArgs names 0 argValues
  | SYSCALL, Some c =>
      StringPtr (strip_assignment c) ++ colon
        ++ StringPtr (strerror_r errorNumber)
        ++ args_text SYSCALL macroArgs names 0 argValues
  | SYSCALL, None => []
  end.

(** The exception once each context of a chain, innermost first, has
    added its annotation. *)
Fixpoint annotate (infos : list ContextInfo) (e : Exception) : Exception :=
  match infos with
  | [] => e
  | info :: infos' =>
      annotate infos'
        (wrapContext e (ctx_file info) (ctx_line info)
           (description_text LOG None 0 (ctx_macroArgs info)
                             (ctx_argValues info)))
  end.

(** What building those annotations hands to the terminal sink. *)
Fixpoint annotate_sink (infos : list ContextInfo) (calls : list SinkCall)
  : list SinkCall :=
  match infos with
  | [] => calls
  | info :: infos' =>
      annotate_sink infos'
        (parse_sink (ctx_macroArgs info) (length (ctx_argValues info)) calls)
  end.

End Outcome.

(** *** Invariants *)

(** A view that lies inside the text it points into. *)
Definition view_in (s : cstr) (a : ArrayPtr) : Prop :=
  ptr a + size_ a <= strlen s.

(** [written] has been filled in and [free] characters are left. *)
Definition buf_state (b : Buffer) (written : String) (free : nat) : Prop :=
  chars b = written ++ replicate free NUL /\ cursor b = length written.

(** What every iteration of the loop preserves. *)
Definition scan_inv (s : cstr) (n : nat) (st : ScanState) : Prop :=
  start st <= pos st /\ pos st <= strlen s
  /\ length (argNames st) = n /\ Forall (view_in s) (argNames st).

(** Slots of [argNames] from [index] on still hold the null view. *)
Definition untouched (n : nat) (st : ScanState) : Prop :=
  forall i, index st <= i -> i < n -> argNames st !! i = Some nullArrayPtr.

(** The text between [start] and [pos]. *)
Definition seg_text (s : cstr) (st : ScanState) : String :=
  take (pos st - start st) (drop (start st) s).

(** The views [names] denote the first [n] of [segments], and nothing where
    there is no segment. *)
Definition names_match (s : cstr) (n : nat) (names : list ArrayPtr)
    (segments : list String) : Prop :=
  forall i, i < n ->
    span_text s (name_at names i) = default [] (segments !! i).

(** What relates a state of the scanner to the tokenizer of the
    specification: [found] are the segments split off so far and [ws] the
    whitespace skipped before [start]. *)
Definition scan_rel (s : cstr) (n : nat) (st : ScanState)
    (found : list String) (ws : String) : Prop :=
  scan_inv s n st
  /\ length found = index st
  /\ names_match s n (argNames st) found
  /\ Forall (fun c => isspace c = true) ws
  /\ isspace (deref s (start st)) = false.

(** *** Further vocabulary *)

(** The commas of a text. *)
Definition count_commas (s : String) : nat := count_occ ascii_dec s COMMA.

(** The views stored so far come one after the other in the text, each
    ending before the next begins, and all before [limit]. *)
Definition views_ordered (names : list ArrayPtr) (k limit : nat) : Prop :=
  (forall i a, i < k -> names !! i = Some a -> ptr a + size_ a < limit)
  /\ (forall i j a b, i < j -> j < k ->
        names !! i = Some a -> names !! j = Some b ->
        ptr a + size_ a < ptr b).

(** What may stand between the quotes of a string literal: characters other
    than the quote, the backslash and NUL, and backslashes each followed by
    one character other than NUL. *)
Inductive literal_body : String -> Prop :=
| literal_nil : literal_body []
| literal_char c body :
    inside_quotes c = true -> literal_body body -> literal_body (c :: body)
| literal_escape c body :
    c <> NUL -> literal_body body -> literal_body (BACKSLASH :: c :: body).

Definition COLON : ascii := ascii_of_nat 58.

(** The annotation a context adds: its file, its line and the LOG-style
    description of its arguments. *)
Definition annotation_of (strerror_r : Z -> cstr) (info : ContextInfo)
  : Annotation :=
  mkAnnotation (ctx_file info) (ctx_line info)
    (description_text strerror_r LOG None 0 (ctx_macroArgs info)
                      (ctx_argValues info)).

(** ** Sample inputs *)

(** A platform for the worked examples: error 9 is EBADF. *)
Definition EBADF : Z := 9.
Definition sample_strerror_r (errorNumber : Z) : cstr :=
  if (errorNumber =? EBADF)%Z then lit "Bad file descriptor"
  else lit "Unknown error".
Definition sample_FILE : cstr := lit "src/kj/logging.c++".

(** Nothing registered, nothing received yet. *)
Definition root_world : World := mkWorld RootSink [].

(** * Properties *)

(** ** The output buffer *)

Lemma heapString_state size : buf_state (heapString size) [] size.
Proof. by split. Qed.

Lemma fill_ok b written free piece :
  buf_state b written free ->
  length piece <= free ->
  exists b', fill b piece = Some b'
             /\ buf_state b' (written ++ piece) (free - length piece).
Proof.
  intros [Hc Hp] Hle. unfold fill. rewrite Hc, Hp.
  rewrite length_app, length_replicate.
  case_match eqn:Hfit; [|apply Nat.leb_gt in Hfit; lia].
  eexists; split; [done|]. split; simpl.
  - rewrite take_app_length, drop_app_add, drop_replicate.
    by rewrite <- (assoc_L (++)).
  - by rewrite length_app.
Qed.

Lemma fill_overflow b written free piece :
  buf_state b written free ->
  free < length piece ->
  fill b piece = None.
Proof.
  intros [Hc Hp] Hlt. unfold fill. rewrite Hc, Hp.
  rewrite length_app, length_replicate.
  case_match eqn:Hfit; [apply Nat.leb_le in Hfit; lia|done].
Qed.

Lemma buf_state_eq b w f w' f' :
  buf_state b w f -> w = w' -> f = f' -> buf_state b w' f'.
Proof. by intros ? <- <-. Qed.

Ltac buf_done H :=
  eapply buf_state_eq; [exact H | by rewrite <- ?(assoc_L (++)), ?app_nil_r
    | cbn [length]; lia].

Lemma fill_head_ok style codeArray sysErrorArray b written free :
  buf_state b written free ->
  head_size style codeArray sysErrorArray <= free ->
  exists b', fill_head style codeArray sysErrorArray b = Some b'
    /\ buf_state b' (written ++ head_text style codeArray sysErrorArray)
                 (free - head_size style codeArray sysErrorArray).
Proof.
  intros Hb Hle. destruct style; unfold head_size, fill_head, head_text in *.
  - exists b. split; [done|]. buf_done Hb.
  - destruct (fill_ok _ _ _ expected Hb) as (b1 & -> & H1); [lia|].
    destruct (fill_ok _ _ _ codeArray H1) as (b2 & E2 & H2); [lia|].
    exists b2. split; [done|]. buf_done H2.
  - destruct (fill_ok _ _ _ codeArray Hb) as (b1 & -> & H1); [lia|].
    destruct (fill_ok _ _ _ colon H1) as (b2 & E2 & H2); [lia|].
    destruct (fill_ok _ _ _ sysErrorArray H2) as (b3 & E3 & H3); [lia|].
    exists b3. cbn [mbind option_bind]. rewrite E2. split; [done|]. buf_done H3.
Qed.

Lemma strlen_le s : strlen s <= length s.
Proof. induction s as [|c s IH]; simpl; [done|]. case_match; lia. Qed.

Lemma span_text_length s a : view_in s a -> length (span_text s a) = size_ a.
Proof.
  unfold view_in, span_text. intros H. pose proof (strlen_le s).
  rewrite length_take, length_drop. lia.
Qed.

Lemma null_view_in s : view_in s nullArrayPtr.
Proof. unfold view_in; simpl; lia. Qed.

Lemma name_at_view_in s names i :
  Forall (view_in s) names -> view_in s (name_at names i).
Proof.
  intros H. unfold name_at. destruct (names !! i) as [a|] eqn:E; simpl.
  - eapply Forall_lookup_1; eauto.
  - apply null_view_in.
Qed.

Lemma rendered_arg_prefix s a v : rendered_arg s a v = name_prefix s a ++ v.
Proof.
  unfold rendered_arg, name_prefix. case_match; [|done].
  by rewrite <- (assoc_L (++)).
Qed.

Lemma name_prefix_length s a :
  view_in s a ->
  length (name_prefix s a) = if has_name s a then size_ a + length sep else 0.
Proof.
  intros H. unfold name_prefix. case_match; [|done].
  by rewrite length_app, span_text_length.
Qed.

(** The sizing loop adds exactly the length of the text the arguments render to. *)
Lemma args_size_text style s names i values total :
  Forall (view_in s) names ->
  args_size style s names i values total
  = total + length (args_text style s names i values).
Proof.
  intros Hv. revert i total.
  induction values as [|v values IH]; intros i total; simpl; [lia|].
  rewrite IH, !length_app, rendered_arg_prefix, length_app, name_prefix_length
    by by apply name_at_view_in.
  destruct (wants_delim style i), (has_name s (name_at names i)); simpl; lia.
Qed.

Lemma fill_args_ok style s names values : forall i b written free,
  buf_state b written free ->
  length (args_text style s names i values) <= free ->
  exists b', fill_args style s names i values b = Some b'
    /\ buf_state b' (written ++ args_text style s names i values)
                 (free - length (args_text style s names i values)).
Proof.
  induction values as [|v values IH]; intros i b written free Hb Hle.
  - exists b. split; [done|]. simpl. buf_done Hb.
  - cbn [args_text fill_args] in *.
    rewrite rendered_arg_prefix in *. rewrite !length_app in Hle.
    set (d := if wants_delim style i then delim else []) in *.
    assert (exists b1, (if wants_delim style i then fill b delim else Some b) = Some b1
                       /\ buf_state b1 (written ++ d) (free - length d))
      as (b1 & -> & H1).
    { subst d. destruct (wants_delim style i).
      - apply fill_ok; [done|lia].
      - exists b. split; [done|]. buf_done Hb. }
    cbn [mbind option_bind].
    set (a := name_at names i) in *.
    assert (exists b2, (if has_name s a
                        then b' <- fill b1 (span_text s a); fill b' sep
                        else Some b1) = Some b2
                       /\ buf_state b2 ((written ++ d) ++ name_prefix s a)
                            (free - length d - length (name_prefix s a)))
      as (b2 & -> & H2).
    { unfold name_prefix in *. destruct (has_name s a).
      - rewrite !length_app in *.
        destruct (fill_ok _ _ _ (span_text s a) H1) as (b' & -> & H'); [lia|].
        cbn [mbind option_bind].
        destruct (fill_ok _ _ _ sep H') as (b2 & -> & H2); [lia|].
        exists b2. split; [done|]. buf_done H2.
      - exists b1. split; [done|]. buf_done H1. }
    cbn [mbind option_bind].
    destruct (fill_ok _ _ _ v H2) as (b3 & -> & H3); [lia|].
    cbn [mbind option_bind].
    destruct (IH (S i) b3 _ _ H3) as (b4 & -> & H4); [lia|].
    exists b4. split; [done|].
    rewrite !length_app. buf_done H4.
Qed.

Lemma head_size_text style codeArray sysErrorArray :
  head_size style codeArray sysErrorArray
  = length (head_text style codeArray sysErrorArray).
Proof.
  destruct style; unfold head_size, head_text; rewrite ?length_app;
    cbn [length]; lia.
Qed.

Lemma fill_pass_ok style codeArray sysErrorArray s names values :
  Forall (view_in s) names ->
  let total := sizing_pass style codeArray sysErrorArray s names values in
  exists b,
    fill_pass style codeArray sysErrorArray s names values (heapString total)
    = Some b
    /\ cursor b = total
    /\ length (chars b) = total
    /\ chars b = head_text style codeArray sysErrorArray
                 ++ args_text style s names 0 values.
Proof.
  intros Hv total. unfold fill_pass.
  assert (Ht : total = length (head_text style codeArray sysErrorArray)
                       + length (args_text style s names 0 values)).
  { subst total. unfold sizing_pass. rewrite args_size_text by done.
    by rewrite head_size_text. }
  pose proof (head_size_text style codeArray sysErrorArray) as Hh.
  destruct (fill_head_ok style codeArray sysErrorArray _ _ _
              (heapString_state total)) as (b1 & -> & H1); [lia|].
  cbn [mbind option_bind].
  destruct (fill_args_ok style s names values 0 b1 _ _ H1) as (b2 & -> & H2);
    [lia|].
  exists b2. split; [done|].
  destruct H2 as [Hc Hp]. rewrite Hh in Hc.
  replace (total - _ - _) with 0 in Hc by lia.
  cbn [replicate app] in Hc, Hp. rewrite app_nil_r in Hc.
  rewrite Hc, Hp, !length_app. split_and!; [lia|lia|done].
Qed.

(** ** C strings *)

Lemma ch_eqb_eq a b : ch_eqb a b = true <-> a = b.
Proof. apply Ascii.eqb_eq. Qed.

Lemma ch_eqb_neq a b : ch_eqb a b = false <-> a <> b.
Proof. apply Ascii.eqb_neq. Qed.

Lemma ch_eqb_refl a : ch_eqb a a = true.
Proof. by apply ch_eqb_eq. Qed.

Lemma isspace_not_NUL c : isspace c = true -> c <> NUL.
Proof. by intros H ->. Qed.

Lemma deref_nil p : deref [] p = NUL.
Proof. by destruct p. Qed.

Lemma deref_cons_S c s p : deref (c :: s) (S p) = deref s p.
Proof. done. Qed.

Lemma deref_strlen s : deref s (strlen s) = NUL.
Proof.
  induction s as [|c s IH]; [done|]. simpl.
  destruct (ch_eqb c NUL) eqn:E; [by apply ch_eqb_eq in E|done].
Qed.

Lemma deref_before_strlen s p : p < strlen s -> deref s p <> NUL.
Proof.
  revert p. induction s as [|c s IH]; intros p; simpl; [lia|].
  destruct (ch_eqb c NUL) eqn:E; [lia|]. apply ch_eqb_neq in E.
  destruct p as [|p]; [done|]. intros H. apply IH. lia.
Qed.

Lemma deref_upto_strlen s p : p <= strlen s -> deref s p <> NUL -> p < strlen s.
Proof.
  intros Hle Hne. destruct (decide (p = strlen s)) as [->|]; [|lia].
  by rewrite deref_strlen in Hne.
Qed.

Lemma deref_drop s p i : deref (drop p s) i = deref s (p + i).
Proof. unfold deref. by rewrite lookup_drop. Qed.

Lemma skip_space_from_bounds rest p :
  p <= skip_space_from rest p <= p + strlen rest.
Proof.
  revert p. induction rest as [|c rest IH]; intros p; simpl; [lia|].
  destruct (isspace c) eqn:E; [|lia].
  apply isspace_not_NUL, ch_eqb_neq in E. rewrite E.
  specialize (IH (S p)). lia.
Qed.

Lemma strlen_drop s p : p <= strlen s -> strlen (drop p s) = strlen s - p.
Proof.
  revert p. induction s as [|c s IH]; intros p; simpl.
  - by rewrite drop_nil.
  - destruct (ch_eqb c NUL) eqn:E.
    + intros Hp. assert (p = 0) as -> by lia. simpl. by rewrite E.
    + destruct p as [|p]; simpl; [by rewrite E|]. intros Hp. apply IH. lia.
Qed.

Lemma skip_space_bounds s p :
  p <= strlen s -> p <= skip_space s p <= strlen s.
Proof.
  intros Hp. unfold skip_space.
  pose proof (skip_space_from_bounds (drop p s) p) as H.
  rewrite strlen_drop in H by done. lia.
Qed.

(** ** The scanner always terminates, inside the text *)

Lemma store_name_length n st e : length (store_name n st e) = length (argNames st).
Proof. unfold store_name. case_match; [by rewrite length_insert|done]. Qed.

Lemma store_name_view_in s n st e :
  Forall (view_in s) (argNames st) ->
  start st <= e -> e <= strlen s ->
  Forall (view_in s) (store_name n st e).
Proof.
  intros Hv Hs He. unfold store_name. case_match; [|done].
  apply Forall_insert; [done|]. unfold view_in, arrayPtr; simpl. lia.
Qed.

Lemma scan_init_inv s n : scan_inv s n (scan_init s n).
Proof.
  unfold scan_inv, scan_init; simpl.
  pose proof (skip_space_bounds s 0). split_and!; [lia|lia| |].
  - by rewrite length_replicate.
  - apply Forall_replicate, null_view_in.
Qed.

Lemma scan_body_inv s n st :
  scan_inv s n st ->
  deref s (pos st) <> NUL ->
  scan_inv s n (scan_body s n (deref s (pos st)) (set_pos st (S (pos st)))).
Proof.
  intros (Hsp & Hpl & Hlen & Hv) Hc.
  pose proof (deref_upto_strlen _ _ Hpl Hc) as Hlt.
  unfold scan_body, scan_inv; simpl.
  destruct (quoted st).
  - destruct (ch_eqb _ BACKSLASH && _) eqn:Esc; simpl.
    + apply andb_prop in Esc as [_ Esc].
      apply negb_true_iff, ch_eqb_neq in Esc.
      pose proof (deref_upto_strlen s (S (pos st)) ltac:(lia) Esc).
      split_and!; (done || lia).
    + destruct (ch_eqb _ DQUOTE); simpl; split_and!; (done || lia).
  - destruct (ch_eqb _ LPAREN); simpl; [split_and!; (done || lia)|].
    destruct (ch_eqb _ RPAREN); simpl; [split_and!; (done || lia)|].
    destruct (ch_eqb _ DQUOTE); simpl; [split_and!; (done || lia)|].
    destruct (ch_eqb _ COMMA && _); simpl; [|split_and!; (done || lia)].
    pose proof (skip_space_bounds s (S (pos st))).
    rewrite Nat.sub_0_r. split_and!; [lia|lia| |].
    + by rewrite store_name_length.
    + apply store_name_view_in; simpl; (done || lia).
Qed.

Lemma scan_loop_total s n fuel st :
  scan_inv s n st ->
  strlen s - pos st < fuel ->
  exists st', scan_loop fuel s n st = Some st'
    /\ pos st' = S (strlen s) /\ start st' <= strlen s
    /\ length (argNames st') = n /\ Forall (view_in s) (argNames st').
Proof.
  revert st. induction fuel as [|fuel IH]; intros st Hinv Hfuel; [lia|].
  simpl. destruct (ch_eqb (deref s (pos st)) NUL) eqn:E.
  - apply ch_eqb_eq in E. destruct Hinv as (Hsp & Hpl & Hlen & Hv).
    exists (set_pos st (S (pos st))). split; [done|]. simpl.
    assert (pos st = strlen s); [|split_and!; (done || lia)].
    destruct (decide (pos st = strlen s)); [done|].
    exfalso. apply (deref_before_strlen s (pos st)); [lia|done].
  - apply ch_eqb_neq in E.
    pose proof (scan_body_inv s n st Hinv E) as Hinv'.
    apply IH; [done|].
    assert (pos st < pos (scan_body s n (deref s (pos st)) (set_pos st (S (pos st))))).
    { destruct Hinv as (Hsp & Hpl & Hlen & Hv).
      pose proof (deref_upto_strlen _ _ Hpl E).
      pose proof (skip_space_bounds s (S (pos st))).
      unfold scan_body; simpl.
      destruct (quoted st);
        repeat (match goal with |- context [if ?b then _ else _] =>
                  destruct b end; simpl); lia. }
    destruct Hinv as (_ & Hpl & _).
    pose proof (deref_upto_strlen _ _ Hpl E). lia.
Qed.

(** The scan of lines 60-93 always completes, and leaves [n] views that all
    lie inside the macro text. *)
Lemma scanArgs_total s n :
  exists st, scanArgs s n = Some st
    /\ length (argNames st) = n /\ Forall (view_in s) (argNames st).
Proof.
  unfold scanArgs.
  destruct (scan_loop_total s n (S (length s)) (scan_init s n))
    as (st & -> & Hpos & Hstart & Hlen & Hv).
  - apply scan_init_inv.
  - pose proof (strlen_le s). lia.
  - eexists; split; [done|]. simpl. split.
    + by rewrite store_name_length.
    + apply store_name_view_in; [done|lia|lia].
Qed.

(** ** Rendering of the arguments, in the words of the specification *)

Lemma deref_lookup s p c : s !! p = Some c -> deref s p = c.
Proof. unfold deref. by intros ->. Qed.

Lemma rendered_arg_spec s a v :
  view_in s a -> rendered_arg s a v = spec_rendered (span_text s a) v.
Proof.
  unfold view_in, rendered_arg, has_name, span_text. intros Hv.
  pose proof (strlen_le s).
  destruct (size_ a) as [|k] eqn:Hk; [done|]. simpl.
  destruct (drop (ptr a) s) as [|c rest] eqn:Hd.
  { apply (f_equal length) in Hd. rewrite length_drop in Hd. simpl in Hd. lia. }
  assert (deref s (ptr a) = c) as ->.
  { apply deref_lookup. rewrite <- (Nat.add_0_r (ptr a)), <- lookup_drop.
    by rewrite Hd. }
  simpl. by destruct (ch_eqb c DQUOTE).
Qed.

Lemma wants_delim_S style i : wants_delim style (S i) = true.
Proof. done. Qed.

Lemma wants_delim_0 style : wants_delim style 0 = negb (style_eqb style LOG).
Proof. done. Qed.

Lemma args_text_spec_from style s names values : forall i,
  Forall (view_in s) names ->
  length names = i + length values ->
  args_text style s names i values
  = spec_args (wants_delim style i)
              (zip (span_text s <$> drop i names) values).
Proof.
  induction values as [|v values IH]; intros i Hv Hlen.
  - by rewrite zip_with_nil_r.
  - simpl in Hlen. cbn [args_text].
    destruct (lookup_lt_is_Some_2 names i) as [a Ha]; [lia|].
    rewrite (drop_S _ _ _ Ha). cbn [fmap list_fmap zip_with spec_args].
    rewrite IH, wants_delim_S by (done || lia).
    unfold name_at. rewrite Ha. simpl.
    rewrite rendered_arg_spec; [done|].
    eapply Forall_lookup_1; eauto.
Qed.

Lemma args_text_spec style s names values :
  Forall (view_in s) names ->
  length names = length values ->
  args_text style s names 0 values
  = spec_args (negb (style_eqb style LOG)) (zip (span_text s <$> names) values).
Proof. intros Hv Hlen. by rewrite args_text_spec_from. Qed.

(** ** Slots of [argNames] the scanner never reached *)

Lemma store_name_untouched n st e i :
  untouched n st -> S (index st) <= i -> i < n ->
  store_name n st e !! i = Some nullArrayPtr.
Proof.
  intros Hu Hi Hn. unfold store_name.
  destruct (index st <? n); [rewrite list_lookup_insert_ne by lia|];
    apply Hu; lia.
Qed.

Lemma scan_init_untouched s n : untouched n (scan_init s n).
Proof. intros i _ Hi. simpl. by apply lookup_replicate_2. Qed.

Lemma scan_body_untouched s n c st :
  untouched n st -> untouched n (scan_body s n c st).
Proof.
  intros Hu. unfold scan_body.
  destruct (quoted st);
    repeat (match goal with |- context [if ?b then _ else _] =>
              destruct b end); try exact Hu.
  intros i Hi Hn. simpl in *. by apply store_name_untouched.
Qed.

Lemma scan_loop_untouched s n fuel : forall st st',
  untouched n st -> scan_loop fuel s n st = Some st' -> untouched n st'.
Proof.
  induction fuel as [|fuel IH]; intros st st' Hu; simpl; [done|].
  destruct (ch_eqb _ NUL).
  - intros [= <-]. exact Hu.
  - apply IH. apply scan_body_untouched. exact Hu.
Qed.

Lemma scanArgs_untouched s n st :
  scanArgs s n = Some st -> untouched n st.
Proof.
  unfold scanArgs. destruct (scan_loop _ _ _ _) as [st1|] eqn:E; [|done].
  intros [= <-]. intros i Hi Hn. unfold scan_finish in *. simpl in Hi |- *.
  apply store_name_untouched; [|done..].
  eapply scan_loop_untouched; [|exact E]. apply scan_init_untouched.
Qed.

(** ** The SYSCALL pre-processing of [code] *)

Lemma strchr_None s c : strchr s c = None -> c ∉ StringPtr s.
Proof.
  unfold StringPtr. induction s as [|x s IH]; simpl.
  - intros _. apply not_elem_of_nil.
  - destruct (ch_eqb x NUL); [intros _; apply not_elem_of_nil|].
    destruct (ch_eqb x c) eqn:E; [done|]. apply ch_eqb_neq in E.
    destruct (strchr s c); [done|]. intros _.
    apply not_elem_of_cons. split; [done|by apply IH].
Qed.

Lemma strchr_Some s c e :
  strchr s c = Some e ->
  exists pre rest, s = pre ++ c :: rest /\ length pre = e
                   /\ (c ∉ pre) /\ (NUL ∉ pre).
Proof.
  revert e. induction s as [|x s IH]; intros e; simpl; [done|].
  destruct (ch_eqb x NUL) eqn:En; [done|]. apply ch_eqb_neq in En.
  destruct (ch_eqb x c) eqn:E.
  - apply ch_eqb_eq in E as ->. intros [= <-].
    exists [], s. split_and!; [done|done|apply not_elem_of_nil..].
  - apply ch_eqb_neq in E. destruct (strchr s c) as [e'|]; [|done].
    intros [= <-]. destruct (IH e' eq_refl) as (pre & rest & -> & Hl & Hc & Hn).
    exists (x :: pre), rest. simpl.
    split_and!; [done|by rewrite Hl|..]; apply not_elem_of_cons; done.
Qed.

Lemma skip_space_from_ltrim rest p :
  p <= skip_space_from rest p
  /\ drop (skip_space_from rest p - p) rest = ltrim rest.
Proof.
  revert p. induction rest as [|c rest IH]; intros p; simpl.
  - by rewrite Nat.sub_diag.
  - destruct (isspace c); [|by rewrite Nat.sub_diag].
    destruct (IH (S p)) as [Hle Hd]. split; [lia|].
    replace (skip_space_from rest (S p) - p)
      with (S (skip_space_from rest (S p) - S p)) by lia.
    done.
Qed.

Lemma skip_space_app pre rest :
  skip_space (pre ++ rest) (length pre)
  = length pre + (skip_space_from rest 0 - 0)
  /\ drop (skip_space (pre ++ rest) (length pre)) (pre ++ rest) = ltrim rest.
Proof.
  unfold skip_space. rewrite drop_app_length.
  destruct (skip_space_from_ltrim rest (length pre)) as [Hle Hd].
  assert (Hshift : forall r p q, skip_space_from r p - p = skip_space_from r q - q).
  { induction r as [|c r IH]; intros p q; simpl; [lia|].
    destruct (isspace c); [|lia].
    pose proof (IH (S p) (S q)).
    destruct (skip_space_from_ltrim r (S p)) as [? _].
    destruct (skip_space_from_ltrim r (S q)) as [? _]. lia. }
  split.
  - rewrite <- (Hshift rest (length pre) 0). lia.
  - replace (skip_space_from rest (length pre))
      with (length pre + (skip_space_from rest (length pre) - length pre)) by lia.
    by rewrite <- drop_drop, drop_app_length.
Qed.

(** [strip_assignment] does what [first_equals_strip] says. *)
Lemma strip_assignment_spec code : first_equals_strip code (strip_assignment code).
Proof.
  unfold strip_assignment. destruct (strchr code EQUALS) as [e|] eqn:E.
  - destruct (strchr_Some _ _ _ E) as (pre & rest & -> & <- & Hc & Hn).
    assert (deref (pre ++ EQUALS :: rest) (S (length pre)) = deref rest 0) as ->.
    { unfold deref. rewrite lookup_app_r by lia.
      by replace (S (length pre) - length pre) with 1 by lia. }
    destruct (ch_eqb (deref rest 0) EQUALS) eqn:E2; simpl.
    + apply ch_eqb_eq in E2. destruct rest as [|c rest]; [done|].
      unfold deref in E2. simpl in E2. subst c. by constructor.
    + apply ch_eqb_neq in E2.
      replace (pre ++ EQUALS :: rest) with ((pre ++ [EQUALS]) ++ rest)
        by by rewrite <- (assoc_L (++)).
      replace (S (length pre)) with (length (pre ++ [EQUALS]))
        by (rewrite length_app; simpl; lia).
      destruct (skip_space_app (pre ++ [EQUALS]) rest) as [_ ->].
      rewrite <- (assoc_L (++)). by constructor.
  - constructor. by apply strchr_None.
Qed.

(** ** Counting what the terminal sink received *)

Lemma recoverable_count_app a b :
  recoverable_count (a ++ b) = recoverable_count a + recoverable_count b.
Proof. unfold recoverable_count. by rewrite filter_app, length_app. Qed.

Lemma fatal_count_app a b :
  fatal_count (a ++ b) = fatal_count a + fatal_count b.
Proof. unfold fatal_count. by rewrite filter_app, length_app. Qed.

Lemma logs_count logs :
  Forall is_log logs -> recoverable_count logs = 0 /\ fatal_count logs = 0.
Proof.
  unfold recoverable_count, fatal_count.
  induction 1 as [|c logs Hc _ [IH1 IH2]]; [done|].
  by destruct c.
Qed.

(** ** The scanner against the tokenizer of the specification *)

Lemma isspace_ordinary c :
  isspace c = true ->
  ch_eqb c NUL = false /\ ch_eqb c LPAREN = false /\ ch_eqb c RPAREN = false
  /\ ch_eqb c DQUOTE = false /\ ch_eqb c COMMA = false.
Proof.
  destruct c as [[] [] [] [] [] [] [] []]; intros H; try discriminate H;
    by vm_compute.
Qed.

Lemma segments_from_spaces d cur ws rest :
  Forall (fun c => isspace c = true) ws ->
  segments_from d false cur (ws ++ rest) = segments_from d false (cur ++ ws) rest.
Proof.
  intros H. revert cur. induction H as [|c ws Hc _ IH]; intros cur.
  - by rewrite app_nil_r.
  - destruct (isspace_ordinary c Hc) as (E1 & E2 & E3 & E4 & E5).
    cbn [app segments_from]. rewrite E1, E2, E3, E4, E5. cbn [andb].
    rewrite IH. by rewrite <- (assoc_L (++)).
Qed.

Lemma segments_from_NUL d q cur rest :
  deref rest 0 = NUL -> segments_from d q cur rest = [cur].
Proof.
  destruct rest as [|c rest]; [done|]. unfold deref; simpl. intros ->.
  by rewrite ch_eqb_refl.
Qed.

Lemma ltrim_spaces ws t :
  Forall (fun c => isspace c = true) ws -> ltrim (ws ++ t) = ltrim t.
Proof. induction 1 as [|c ws Hc _ IH]; [done|]. simpl. by rewrite Hc. Qed.

Lemma ltrim_id t : isspace (deref t 0) = false -> ltrim t = t.
Proof. destruct t as [|c t]; [done|]. unfold deref; simpl. by intros ->. Qed.

Lemma skip_space_from_split rest p :
  exists ws,
    rest = ws ++ drop (skip_space_from rest p - p) rest
    /\ Forall (fun c => isspace c = true) ws
    /\ length ws = skip_space_from rest p - p
    /\ isspace (deref rest (skip_space_from rest p - p)) = false.
Proof.
  revert p. induction rest as [|c rest IH]; intros p; simpl.
  - exists []. by rewrite Nat.sub_diag.
  - destruct (isspace c) eqn:E.
    + destruct (IH (S p)) as (ws & Hr & Hws & Hl & Hn).
      destruct (skip_space_from_ltrim rest (S p)) as [Hle _].
      replace (skip_space_from rest (S p) - p)
        with (S (skip_space_from rest (S p) - S p)) by lia.
      exists (c :: ws). simpl. split_and!; [by rewrite <- Hr| |lia|done].
      by constructor.
    + exists []. rewrite Nat.sub_diag. simpl. split_and!; try done.
Qed.

Lemma skip_space_split s p :
  exists ws,
    drop p s = ws ++ drop (skip_space s p) s
    /\ Forall (fun c => isspace c = true) ws
    /\ isspace (deref s (skip_space s p)) = false.
Proof.
  unfold skip_space.
  destruct (skip_space_from_split (drop p s) p) as (ws & Hr & Hws & Hl & Hn).
  destruct (skip_space_from_ltrim (drop p s) p) as [Hle _].
  exists ws. rewrite drop_drop in Hr. rewrite deref_drop in Hn.
  replace (p + (skip_space_from (drop p s) p - p))
    with (skip_space_from (drop p s) p) in * by lia.
  done.
Qed.

Lemma deref_Some s p : deref s p <> NUL -> s !! p = Some (deref s p).
Proof. unfold deref. by destruct (s !! p). Qed.

Lemma drop_deref s p :
  deref s p <> NUL -> drop p s = deref s p :: drop (S p) s.
Proof. intros H. by apply drop_S, deref_Some. Qed.

Lemma seg_text_snoc s start_ p :
  start_ <= p -> deref s p <> NUL ->
  take (S p - start_) (drop start_ s)
  = take (p - start_) (drop start_ s) ++ [deref s p].
Proof.
  intros Hle Hc. replace (S p - start_) with (S (p - start_)) by lia.
  apply take_S_r. rewrite lookup_drop.
  replace (start_ + (p - start_)) with p by lia. by apply deref_Some.
Qed.

Lemma span_text_arrayPtr s a b :
  span_text s (arrayPtr a b) = take (b - a) (drop a s).
Proof. done. Qed.

Lemma ltrim_seg s ws start_ k :
  Forall (fun c => isspace c = true) ws ->
  isspace (deref s start_) = false ->
  ltrim (ws ++ take k (drop start_ s)) = take k (drop start_ s).
Proof.
  intros Hws Hs. rewrite ltrim_spaces by done. apply ltrim_id.
  destruct k as [|k]; [done|].
  destruct (drop start_ s) as [|c t] eqn:E; [done|].
  assert (deref s start_ = c) as <-; [|done].
  rewrite <- (Nat.add_0_r start_), <- deref_drop. by rewrite E.
Qed.

Lemma store_name_match s n st found e :
  names_match s n (argNames st) found ->
  length found = index st ->
  length (argNames st) = n ->
  names_match s n (store_name n st e)
              (found ++ [take (e - start st) (drop (start st) s)]).
Proof.
  intros Hm Hlen Hn i Hi. unfold store_name, name_at.
  destruct (Nat.ltb_spec (index st) n) as [Hlt|Hge].
  - destruct (decide (i = index st)) as [->|Hne].
    + rewrite list_lookup_insert_eq by lia.
      rewrite lookup_app_r, Hlen, Nat.sub_diag by lia. done.
    + rewrite list_lookup_insert_ne by done.
      specialize (Hm i Hi). unfold name_at in Hm. rewrite Hm.
      destruct (decide (i < index st)).
      * by rewrite lookup_app_l by lia.
      * rewrite !(lookup_ge_None_2 _ i); [done|..];
          rewrite ?length_app; simpl; lia.
  - specialize (Hm i Hi). unfold name_at in Hm. rewrite Hm.
    by rewrite lookup_app_l by lia.
Qed.

Lemma scan_body_refines s n st found ws :
  scan_rel s n st found ws ->
  deref s (pos st) <> NUL ->
  let st2 := scan_body s n (deref s (pos st)) (set_pos st (S (pos st))) in
  exists found' ws',
    scan_rel s n st2 found' ws'
    /\ found ++ (ltrim <$> segments_from (depth st) (quoted st)
                             (ws ++ seg_text s st) (drop (pos st) s))
       = found' ++ (ltrim <$> segments_from (depth st2) (quoted st2)
                                (ws' ++ seg_text s st2) (drop (pos st2) s)).
Proof.
  intros (Hinv & Hlen & Hm & Hws & Hs) Hc st2.
  pose proof (scan_body_inv s n st Hinv Hc) as Hinv2. fold st2 in Hinv2.
  destruct Hinv as (Hsp & Hpl & Hnl & Hv).
  rewrite (drop_deref _ _ Hc).
  apply ch_eqb_neq in Hc as Hc'.
  subst st2. destruct st as [idx st0 p d q names].
  unfold scan_body, scan_rel, seg_text, set_pos, set_depth, set_quoted in *.
  cbn [index start pos depth quoted argNames segments_from] in *.
  rewrite Hc'.
  assert (Hsnoc : take (S p - st0) (drop st0 s)
                  = take (p - st0) (drop st0 s) ++ [deref s p])
    by by apply seg_text_snoc.
  remember (deref s p) as c eqn:Ec.
  (* most steps only append [c] to the segment being read *)
  assert (Hcur : forall ws0 : String,
            ws0 ++ take (S p - st0) (drop st0 s)
            = (ws0 ++ take (p - st0) (drop st0 s)) ++ [c]).
  { intros ws0. by rewrite Hsnoc, (assoc_L (++)). }
  destruct q.
  - destruct (ch_eqb c BACKSLASH) eqn:B; cbn [andb] in *.
    + apply ch_eqb_eq in B. subst c. rewrite B in *.
      change (ch_eqb BACKSLASH DQUOTE) with false in *.
      destruct (ch_eqb (deref s (S p)) NUL) eqn:N; cbn [negb] in *.
      * (* backslash, then the terminator *)
        exists found, ws. split; [by split_and!|].
        cbn [index start pos depth quoted argNames]. rewrite Hcur. do 2 f_equal.
        rewrite (segments_from_NUL _ _ _ (drop (S p) s))
          by (rewrite deref_drop, Nat.add_0_r; by apply ch_eqb_eq).
        destruct (drop (S p) s) as [|c' rest'] eqn:D; [done|].
        assert (c' = NUL) as ->; [|by rewrite ch_eqb_refl].
        apply ch_eqb_eq in N.
        rewrite <- N, <- (Nat.add_0_r (S p)), <- deref_drop. by rewrite D.
      * (* backslash and the character it escapes *)
        apply ch_eqb_neq in N.
        rewrite (drop_deref _ _ N). apply ch_eqb_neq in N as N'. rewrite N'.
        exists found, ws. split; [by split_and!|].
        cbn [index start pos depth quoted argNames]. do 3 f_equal.
        rewrite (seg_text_snoc s st0 (S p)) by (done || lia).
        rewrite Hsnoc. by rewrite <- !(assoc_L (++)).
    + (* in quotes: the closing quote, or any other character *)
      exists found, ws.
      destruct (ch_eqb c DQUOTE) eqn:DQ; (split; [by split_and!|]);
        cbn [index start pos depth quoted argNames negb]; by rewrite Hcur.
  - destruct (ch_eqb c LPAREN) eqn:LP.
    { exists found, ws. split; [by split_and!|].
      cbn [index start pos depth quoted argNames]. by rewrite Hcur. }
    destruct (ch_eqb c RPAREN) eqn:RP.
    { exists found, ws. split; [by split_and!|].
      cbn [index start pos depth quoted argNames]. by rewrite Hcur. }
    destruct (ch_eqb c DQUOTE) eqn:DQ.
    { exists found, ws. split; [by split_and!|].
      cbn [index start pos depth quoted argNames]. by rewrite Hcur. }
    destruct (ch_eqb c COMMA && (d =? 0)%Z) eqn:CM.
    + (* a split *)
      cbn [index start pos depth quoted argNames] in *.
      destruct (skip_space_split s (S p)) as (ws' & Hd & Hws' & Hns).
      exists (found ++ [ltrim (ws ++ take (p - st0) (drop st0 s))]), ws'.
      split.
      * split_and!; [done|rewrite length_app; simpl; lia| |done|done].
        rewrite ltrim_seg by done.
        replace (S p - 1) with p by lia.
        by apply (store_name_match s n (mkScan idx st0 (S p) d false names)).
      * rewrite <- (assoc_L (++)). cbn [fmap list_fmap app]. do 2 f_equal.
        rewrite Hd. rewrite segments_from_spaces by done.
        by rewrite Nat.sub_diag, app_nil_r.
    + exists found, ws. split; [by split_and!|].
      cbn [index start pos depth quoted argNames]. by rewrite Hcur.
Qed.

Lemma scan_loop_refines s n fuel : forall st found ws st',
  scan_rel s n st found ws ->
  scan_loop fuel s n st = Some st' ->
  let segments :=
    found ++ (ltrim <$> segments_from (depth st) (quoted st)
                          (ws ++ seg_text s st) (drop (pos st) s)) in
  index (scan_finish n st') = length segments
  /\ names_match s n (argNames (scan_finish n st')) segments.
Proof.
  induction fuel as [|fuel IH]; intros st found ws st' Hrel; [done|].
  cbn [scan_loop]. destruct (ch_eqb (deref s (pos st)) NUL) eqn:E.
  - intros [= <-]. apply ch_eqb_eq in E.
    rewrite segments_from_NUL by by rewrite deref_drop, Nat.add_0_r.
    destruct Hrel as ((Hsp & Hpl & Hnl & Hv) & Hlen & Hm & Hws & Hs).
    cbv zeta. cbn [fmap list_fmap]. unfold seg_text. rewrite ltrim_seg by done.
    unfold scan_finish. cbn [index argNames pos set_pos].
    rewrite length_app. split; [simpl; lia|].
    replace (S (pos st) - 1) with (pos st) by lia.
    by apply (store_name_match s n (set_pos st (S (pos st)))).
  - apply ch_eqb_neq in E. intros Hloop.
    destruct (scan_body_refines s n st found ws Hrel E)
      as (found' & ws' & Hrel' & ->).
    by apply (IH _ _ _ _ Hrel' Hloop).
Qed.

Lemma scan_init_rel s n :
  exists ws, scan_rel s n (scan_init s n) [] ws
    /\ segments_from 0 false [] s
       = segments_from 0 false (ws ++ seg_text s (scan_init s n))
                       (drop (pos (scan_init s n)) s).
Proof.
  destruct (skip_space_split s 0) as (ws & Hd & Hws & Hns).
  exists ws. split.
  - split_and!; [apply scan_init_inv|done| |done|done].
    intros i Hi. unfold name_at. simpl.
    by rewrite lookup_replicate_2 by done.
  - unfold seg_text. simpl. rewrite Nat.sub_diag, app_nil_r.
    rewrite drop_0 in Hd. rewrite Hd at 1.
    by rewrite segments_from_spaces.
Qed.

Lemma names_match_text s n names segments :
  length names = n ->
  names_match s n names segments ->
  span_text s <$> names = names_for n segments.
Proof.
  intros Hlen Hm. apply list_eq. intros i. unfold names_for.
  rewrite !list_lookup_fmap.
  destruct (decide (i < n)) as [Hi|Hi].
  - rewrite lookup_seq_lt by done. simpl.
    destruct (lookup_lt_is_Some_2 names i) as [a Ha]; [lia|].
    specialize (Hm i Hi). unfold name_at in Hm. rewrite Ha in *. simpl in *.
    by rewrite Hm.
  - rewrite lookup_seq_ge by lia.
    by rewrite lookup_ge_None_2 by lia.
Qed.

(** The scanner finds the segments of the specification's tokenizer: as
    many, and the names it stores are their texts. *)
Lemma scanArgs_spec s n :
  exists st, scanArgs s n = Some st
    /\ index st = length (spec_segments s)
    /\ names_text s st = names_for n (spec_segments s).
Proof.
  destruct (scanArgs_total s n) as (st & E & Hlen & _).
  exists st. split; [done|].
  unfold scanArgs in E.
  destruct (scan_loop _ _ _ _) as [st1|] eqn:Hloop; [|done].
  injection E as <-.
  destruct (scan_init_rel s n) as (ws & Hrel & Hseg).
  destruct (scan_loop_refines s n _ _ _ _ _ Hrel Hloop) as [Hidx Hm].
  change (depth (scan_init s n)) with 0%Z in *.
  change (quoted (scan_init s n)) with false in *.
  rewrite <- Hseg in Hidx, Hm. cbn [app] in Hidx, Hm. split; [done|].
  by apply names_match_text.
Qed.

(** ** Plain comma-separated expressions *)

Lemma plain_ordinary c :
  plain c = true ->
  ch_eqb c NUL = false /\ ch_eqb c LPAREN = false /\ ch_eqb c RPAREN = false
  /\ ch_eqb c DQUOTE = false /\ ch_eqb c COMMA = false.
Proof.
  unfold plain. intros H. apply negb_true_iff in H.
  repeat (apply orb_false_elim in H as [H ?]). by split_and!.
Qed.

Lemma segments_from_plain cur e rest :
  Forall (fun c => plain c = true) e ->
  segments_from 0 false cur (e ++ rest) = segments_from 0 false (cur ++ e) rest.
Proof.
  intros H. revert cur. induction H as [|c e Hc _ IH]; intros cur.
  - by rewrite app_nil_r.
  - destruct (plain_ordinary c Hc) as (E1 & E2 & E3 & E4 & E5).
    cbn [app segments_from]. rewrite E1, E2, E3, E4, E5. cbn [andb].
    rewrite IH. by rewrite <- (assoc_L (++)).
Qed.

Lemma segments_from_join cur e es :
  Forall (Forall (fun c => plain c = true)) (e :: es) ->
  segments_from 0 false cur (join_commas (e :: es)) = (cur ++ e) :: es.
Proof.
  revert cur e. induction es as [|e' es IH]; intros cur e He.
  - apply Forall_cons in He as [He _]. cbn [join_commas].
    rewrite <- (app_nil_r e) at 1.
    by rewrite segments_from_plain.
  - apply Forall_cons in He as [He Hes].
    change (join_commas (e :: e' :: es))
      with (e ++ COMMA :: join_commas (e' :: es)).
    rewrite segments_from_plain by done.
    cbn [segments_from]. change (ch_eqb COMMA NUL) with false.
    change (ch_eqb COMMA LPAREN) with false.
    change (ch_eqb COMMA RPAREN) with false.
    change (ch_eqb COMMA DQUOTE) with false.
    change (ch_eqb COMMA COMMA && (0 =? 0)%Z) with true. cbn iota.
    by rewrite IH.
Qed.

Lemma names_for_exact segments : names_for (length segments) segments = segments.
Proof.
  apply list_eq. intros i. unfold names_for. rewrite list_lookup_fmap.
  destruct (decide (i < length segments)) as [Hi|Hi].
  - rewrite lookup_seq_lt by done. simpl.
    by destruct (lookup_lt_is_Some_2 segments i Hi) as [x ->].
  - rewrite lookup_seq_ge by lia. by rewrite lookup_ge_None_2 by lia.
Qed.

Lemma scanArgs_plain_expressions (es : list String) :
  es <> [] ->
  Forall (Forall (fun c => plain c = true)) es ->
  exists st,
    scanArgs (join_commas es) (length es) = Some st
    /\ index st = length es
    /\ length (argNames st) = length es
    /\ names_text (join_commas es) st = ltrim <$> es.
Proof.
  intros Hne Hplain.
  destruct (scanArgs_spec (join_commas es) (length es)) as (st & E & Hi & Hn).
  destruct (scanArgs_total (join_commas es) (length es)) as (st' & E' & Hl & _).
  rewrite E in E'. injection E' as <-.
  assert (Hseg : spec_segments (join_commas es) = ltrim <$> es).
  { unfold spec_segments. destruct es as [|e es]; [done|].
    by rewrite segments_from_join. }
  rewrite Hseg in *. rewrite length_fmap in Hi.
  exists st. split_and!; [done..|].
  rewrite Hn. rewrite <- (length_fmap ltrim es). apply names_for_exact.
Qed.

(** C2, as the code has it: for N expressions free of commas, parentheses,
    quotes and NUL, written with commas between them, and N values, the
    scanner counts N segments and leaves exactly N names, and each name is
    its expression without its leading whitespace.  Whitespace at the end of
    an expression stays in the name. *)
Theorem plain_expressions_are_left_trimmed (es : list String) :
  Forall (Forall (fun c => plain c = true)) es ->
  segments_parsed (join_commas es) (length es) = length es
  /\ length (parsed_names (join_commas es) (length es)) = length es
  /\ span_text (join_commas es) <$> parsed_names (join_commas es) (length es)
     = ltrim <$> es.
Proof.
  intros Hplain. destruct es as [|e es]; [done|].
  destruct (scanArgs_plain_expressions (e :: es)) as (st & E & Hi & Hl & Hn);
    [done|done|].
  unfold segments_parsed, parsed_names. rewrite E. by cbn [length Nat.ltb Nat.leb from_option].
Qed.


Lemma strlen_app_no_NUL pre rest :
  NUL ∉ pre -> strlen (pre ++ rest) = length pre + strlen rest.
Proof.
  induction pre as [|c pre IH]; [done|]. intros H.
  apply not_elem_of_cons in H as [Hc H]. simpl.
  destruct (ch_eqb c NUL) eqn:E; [by apply ch_eqb_eq in E|].
  by rewrite IH.
Qed.

Lemma first_occurrence_unique (c : ascii) pre1 rest1 pre2 rest2 :
  pre1 ++ c :: rest1 = pre2 ++ c :: rest2 ->
  c ∉ pre1 -> c ∉ pre2 ->
  pre1 = pre2 /\ rest1 = rest2.
Proof.
  revert pre2. induction pre1 as [|x pre1 IH]; intros [|y pre2]; simpl.
  - by intros [= ->].
  - intros [= <- _] _ H. exfalso. apply H. by left.
  - intros [= -> _] H _. exfalso. apply H. by left.
  - intros [= -> E] H1 H2.
    apply not_elem_of_cons in H1 as [_ H1].
    apply not_elem_of_cons in H2 as [_ H2].
    by destruct (IH _ E H1 H2) as [-> ->].
Qed.

Lemma first_equals_in_StringPtr pre rest :
  NUL ∉ pre -> EQUALS ∈ StringPtr (pre ++ EQUALS :: rest).
Proof.
  intros H. unfold StringPtr. rewrite strlen_app_no_NUL by done.
  rewrite take_app_ge by lia.
  apply elem_of_app. right.
  replace (length pre + strlen (EQUALS :: rest) - length pre)
    with (S (strlen rest)) by (simpl; change (ch_eqb EQUALS NUL) with false; lia).
  by left.
Qed.

(** [first_equals_strip] relates a code text to one result only. *)
Lemma first_equals_strip_functional code a b :
  first_equals_strip code a -> first_equals_strip code b -> a = b.
Proof.
  intros Ha Hb.
  destruct Ha as [code Hno|pre rest He Hn|pre rest He Hn Hd].
  - inversion Hb as [|pre' rest' He' Hn' E|pre' rest' He' Hn' Hd' E];
      subst; [done|done|].
    exfalso. apply Hno. by apply first_equals_in_StringPtr.
  - inversion Hb as [? Hno|pre' rest' He' Hn' E|pre' rest' He' Hn' Hd' E];
      subst; [done|done|].
    destruct (first_occurrence_unique _ _ _ _ _ E He' He) as [_ ->].
    by exfalso.
  - inversion Hb as [? Hno|pre' rest' He' Hn' E|pre' rest' He' Hn' Hd' E];
      subst.
    + exfalso. apply Hno. by apply first_equals_in_StringPtr.
    + destruct (first_occurrence_unique _ _ _ _ _ E He' He) as [_ <-].
      by exfalso.
    + by destruct (first_occurrence_unique _ _ _ _ _ E He' He) as [_ ->].
Qed.

(** ** Groups in parentheses and in quotes *)

Lemma segments_from_inside_parens d cur inner rest :
  d <> 0%Z ->
  Forall (fun c => inside_parens c = true) inner ->
  segments_from d false cur (inner ++ rest)
  = segments_from d false (cur ++ inner) rest.
Proof.
  intros Hd H. revert cur. induction H as [|c inner Hc _ IH]; intros cur.
  - by rewrite app_nil_r.
  - unfold inside_parens in Hc. apply negb_true_iff in Hc.
    repeat (apply orb_false_elim in Hc as [Hc ?]).
    cbn [app segments_from]. rewrite Hc.
    repeat match goal with H : ch_eqb c _ = false |- _ => rewrite H; clear H end.
    destruct (Z.eqb_spec d 0) as [|_]; [done|]. rewrite andb_false_r.
    rewrite IH. by rewrite <- (assoc_L (++)).
Qed.

Lemma segments_from_inside_quotes d cur inner rest :
  Forall (fun c => inside_quotes c = true) inner ->
  segments_from d true cur (inner ++ rest)
  = segments_from d true (cur ++ inner) rest.
Proof.
  intros H. revert cur. induction H as [|c inner Hc _ IH]; intros cur.
  - by rewrite app_nil_r.
  - unfold inside_quotes in Hc. apply negb_true_iff in Hc.
    repeat (apply orb_false_elim in Hc as [Hc ?]).
    cbn [app segments_from]. rewrite Hc.
    repeat match goal with H : ch_eqb c _ = false |- _ => rewrite H; clear H end.
    cbn [negb]. rewrite IH. by rewrite <- (assoc_L (++)).
Qed.

(** A group in parentheses, commas and all, stays in the segment being
    read. *)
Lemma segments_from_parens d cur inner rest :
  (0 <= d < UINT_MOD - 1)%Z ->
  Forall (fun c => inside_parens c = true) inner ->
  segments_from d false cur (LPAREN :: inner ++ RPAREN :: rest)
  = segments_from d false (cur ++ LPAREN :: inner ++ [RPAREN]) rest.
Proof.
  intros Hd Hin. cbn [segments_from].
  change (ch_eqb LPAREN NUL) with false. change (ch_eqb LPAREN LPAREN) with true.
  cbn iota.
  assert (Hd1 : ((d + 1) mod UINT_MOD)%Z = (d + 1)%Z)
    by (apply Z.mod_small; lia).
  rewrite Hd1, segments_from_inside_parens by (done || lia).
  cbn [segments_from].
  change (ch_eqb RPAREN NUL) with false.
  change (ch_eqb RPAREN LPAREN) with false.
  change (ch_eqb RPAREN RPAREN) with true. cbn iota.
  replace ((d + 1 - 1) mod UINT_MOD)%Z with d
    by (rewrite Z.mod_small; lia).
  f_equal. by rewrite <- !(assoc_L (++)).
Qed.

(** A region in quotes, commas and parentheses and all, stays in the
    segment being read. *)
Lemma segments_from_quotes d cur inner rest :
  Forall (fun c => inside_quotes c = true) inner ->
  segments_from d false cur (DQUOTE :: inner ++ DQUOTE :: rest)
  = segments_from d false (cur ++ DQUOTE :: inner ++ [DQUOTE]) rest.
Proof.
  intros Hin. cbn [segments_from].
  change (ch_eqb DQUOTE NUL) with false.
  change (ch_eqb DQUOTE LPAREN) with false.
  change (ch_eqb DQUOTE RPAREN) with false.
  change (ch_eqb DQUOTE DQUOTE) with true. cbn iota.
  rewrite segments_from_inside_quotes by done.
  cbn [segments_from].
  change (ch_eqb DQUOTE NUL) with false.
  change (ch_eqb DQUOTE BACKSLASH) with false.
  change (ch_eqb DQUOTE DQUOTE) with true. cbn [negb].
  f_equal. by rewrite <- !(assoc_L (++)).
Qed.

(** In quotes, a backslash and the character after it, a quote included,
    stay in the segment being read, and the region stays open. *)
Lemma segments_from_escape d cur c rest :
  c <> NUL ->
  segments_from d true cur (BACKSLASH :: c :: rest)
  = segments_from d true (cur ++ [BACKSLASH; c]) rest.
Proof.
  intros Hc. apply ch_eqb_neq in Hc. cbn [segments_from].
  change (ch_eqb BACKSLASH NUL) with false.
  change (ch_eqb BACKSLASH BACKSLASH) with true. by rewrite Hc.
Qed.

(** ** What one iteration of the scanner does with a character *)

Lemma scan_body_split_iff s n c st :
  index (scan_body s n c st) = S (index st)
  <-> (c = COMMA /\ depth st = 0%Z /\ quoted st = false).
Proof.
  unfold scan_body. destruct (quoted st) eqn:Q.
  - split; [|by intros (_ & _ & ?)].
    repeat (match goal with |- context [if ?b then _ else _] =>
              destruct b end); simpl; lia.
  - destruct (ch_eqb c LPAREN) eqn:LP.
    { apply ch_eqb_eq in LP as ->. simpl. split; [lia|by intros (? & _)]. }
    destruct (ch_eqb c RPAREN) eqn:RP.
    { apply ch_eqb_eq in RP as ->. simpl. split; [lia|by intros (? & _)]. }
    destruct (ch_eqb c DQUOTE) eqn:DQ.
    { apply ch_eqb_eq in DQ as ->. simpl. split; [lia|by intros (? & _)]. }
    destruct (ch_eqb c COMMA) eqn:CM; simpl.
    + apply ch_eqb_eq in CM as ->.
      destruct (Z.eqb_spec (depth st) 0); simpl.
      * by split.
      * split; [lia|by intros (_ & ? & _)].
    + apply ch_eqb_neq in CM. split; [lia|by intros (? & _)].
Qed.

Lemma scan_body_no_split s n c st :
  ~ (c = COMMA /\ depth st = 0%Z /\ quoted st = false) ->
  index (scan_body s n c st) = index st
  /\ argNames (scan_body s n c st) = argNames st
  /\ start (scan_body s n c st) = start st.
Proof.
  intros Hno. unfold scan_body. destruct (quoted st) eqn:Q.
  - repeat (match goal with |- context [if ?b then _ else _] =>
              destruct b end); done.
  - destruct (ch_eqb c LPAREN); [done|].
    destruct (ch_eqb c RPAREN); [done|].
    destruct (ch_eqb c DQUOTE); [done|].
    destruct (ch_eqb c COMMA && (depth st =? 0)%Z) eqn:CM; [|done].
    exfalso. apply Hno. apply andb_prop in CM as [C D].
    apply ch_eqb_eq in C. apply Z.eqb_eq in D. done.
Qed.

Lemma scan_body_split s n st :
  depth st = 0%Z -> quoted st = false ->
  scan_body s n COMMA st
  = mkScan (S (index st)) (skip_space s (pos st)) (skip_space s (pos st))
           0 false (store_name n st (pos st - 1)).
Proof. intros Hd Hq. unfold scan_body. by rewrite Hq, Hd. Qed.

Lemma scan_body_escape s n i start_ p d names :
  scan_body s n BACKSLASH (mkScan i start_ p d true names)
  = mkScan i start_ (if ch_eqb (deref s p) NUL then p else S p) d true names.
Proof.
  unfold scan_body. simpl.
  change (ch_eqb BACKSLASH BACKSLASH) with true.
  change (ch_eqb BACKSLASH DQUOTE) with false.
  by destruct (ch_eqb (deref s p) NUL).
Qed.

(** ** Texts that are one segment *)

Lemma scanArgs_one_segment s seg :
  segments_from 0 false [] s = [seg] ->
  exists st, scanArgs s 1 = Some st /\ index st = 1
             /\ names_text s st = [ltrim seg].
Proof.
  intros Hseg. destruct (scanArgs_spec s 1) as (st & E & Hi & Hn).
  unfold spec_segments in *. rewrite Hseg in *. by exists st.
Qed.

(** A call with its arguments in parentheses, commas among them, is one
    segment. *)
Lemma scanArgs_parenthesised f inner :
  Forall (fun c => plain c = true) f ->
  Forall (fun c => inside_parens c = true) inner ->
  exists st,
    scanArgs (f ++ LPAREN :: inner ++ [RPAREN]) 1 = Some st
    /\ index st = 1
    /\ names_text (f ++ LPAREN :: inner ++ [RPAREN]) st
       = [ltrim (f ++ LPAREN :: inner ++ [RPAREN])].
Proof.
  intros Hf Hin. apply scanArgs_one_segment.
  rewrite segments_from_plain by done.
  by rewrite segments_from_parens by (done || (unfold UINT_MOD; lia)).
Qed.

(** A string literal, commas and parentheses among its characters, is one
    segment. *)
Lemma scanArgs_quoted inner :
  Forall (fun c => inside_quotes c = true) inner ->
  exists st,
    scanArgs (DQUOTE :: inner ++ [DQUOTE]) 1 = Some st
    /\ index st = 1
    /\ names_text (DQUOTE :: inner ++ [DQUOTE]) st
       = [DQUOTE :: inner ++ [DQUOTE]].
Proof.
  intros Hin.
  destruct (scanArgs_one_segment (DQUOTE :: inner ++ [DQUOTE])
              (DQUOTE :: inner ++ [DQUOTE])) as (st & E & Hi & Hn).
  - by rewrite segments_from_quotes by done.
  - by exists st.
Qed.

(** C1: in every iteration of the loop the segment counter advances, that
    is, the character is treated as a split point, exactly when the
    character is a comma, the depth counter (the scanner's 32-bit unsigned
    one) is 0 and the scanner is not in quoted mode; an iteration that is no
    split leaves the recorded names and the segment start alone.  In quoted
    mode a backslash before anything but the terminator moves [pos] past the
    next character, whatever it is, a quote included, and the scanner stays
    in quoted mode.  Over the whole text the scanner finds the segments of
    the tokenizer of the specification; a call with its parenthesised
    arguments is one segment and so is a string literal, whatever commas
    they contain; the three worked examples come out as stated. *)
Theorem comma_splits_at_depth_zero_outside_quotes (s : cstr) (n : nat) :
  (forall c st,
      index (scan_body s n c st) = S (index st)
      <-> (c = COMMA /\ depth st = 0%Z /\ quoted st = false))
  /\ (forall c st,
        ~ (c = COMMA /\ depth st = 0%Z /\ quoted st = false) ->
        index (scan_body s n c st) = index st
        /\ argNames (scan_body s n c st) = argNames st
        /\ start (scan_body s n c st) = start st)
  /\ (forall i start_ p d names,
        scan_body s n BACKSLASH (mkScan i start_ p d true names)
        = mkScan i start_ (if ch_eqb (deref s p) NUL then p else S p)
                 d true names)
  /\ (exists st,
        scanArgs s n = Some st
        /\ index st = length (spec_segments s)
        /\ names_text s st = names_for n (spec_segments s))
  /\ (forall f inner,
        Forall (fun c => plain c = true) f ->
        Forall (fun c => inside_parens c = true) inner ->
        exists st,
          scanArgs (f ++ LPAREN :: inner ++ [RPAREN]) 1 = Some st
          /\ index st = 1
          /\ names_text (f ++ LPAREN :: inner ++ [RPAREN]) st
             = [ltrim (f ++ LPAREN :: inner ++ [RPAREN])])
  /\ (forall inner,
        Forall (fun c => inside_quotes c = true) inner ->
        exists st,
          scanArgs (DQUOTE :: inner ++ [DQUOTE]) 1 = Some st
          /\ index st = 1
          /\ names_text (DQUOTE :: inner ++ [DQUOTE]) st
             = [DQUOTE :: inner ++ [DQUOTE]])
  /\ (names_text (lit "f(a, b), c") <$> scanArgs (lit "f(a, b), c") 2
      = Some [lit "f(a, b)"; lit "c"])
  /\ (names_text (DQUOTE :: lit "a,b" ++ DQUOTE :: lit ", c")
        <$> scanArgs (DQUOTE :: lit "a,b" ++ DQUOTE :: lit ", c") 2
      = Some [DQUOTE :: lit "a,b" ++ [DQUOTE]; lit "c"])
  /\ (index
        <$> scanArgs (DQUOTE :: lit "a" ++ BACKSLASH :: DQUOTE :: lit "b"
                        ++ DQUOTE :: lit ", c") 2
      = Some 2).
Proof.
  split_and!.
  - apply scan_body_split_iff.
  - apply scan_body_no_split.
  - apply scan_body_escape.
  - apply scanArgs_spec.
  - apply scanArgs_parenthesised.
  - apply scanArgs_quoted.
  - by vm_compute.
  - by vm_compute.
  - by vm_compute.
Qed.

(** ** The description builder *)

Section LoggingProperties.

Variable strerror_r : Z -> cstr.
Variable FILE__ : cstr.

(** A log message handed to any callback reaches the terminal sink as it
    is, once. *)
Lemma logMessage_run cb text w :
  logMessage cb text w
  = Returned tt (mkWorld (active w) (sink w ++ [SinkLog text])).
Proof. induction cb as [|next IH info]; [done|apply IH]. Qed.

Lemma segments_parsed_scan macroArgs n st :
  0 < n -> scanArgs macroArgs n = Some st ->
  segments_parsed macroArgs n = index st.
Proof.
  intros Hn E. unfold segments_parsed. rewrite E.
  by destruct (Nat.ltb_spec 0 n); [|lia].
Qed.

Lemma parse_names_run macroArgs n w :
  parse_names FILE__ macroArgs n w
  = Returned (parsed_names macroArgs n)
             (mkWorld (active w) (parse_sink FILE__ macroArgs n (sink w))).
Proof.
  unfold parse_names, parsed_names, parse_sink, segments_parsed.
  destruct (Nat.ltb_spec 0 n) as [Hn|Hn].
  - destruct (scanArgs_total macroArgs n) as (st & -> & _). simpl.
    unfold mbind, M_bind, mret, M_ret.
    destruct (index st =? n); simpl; [by destruct w|].
    unfold getExceptionCallback. by rewrite logMessage_run.
  - assert (n = 0) as -> by lia. by destruct w.
Qed.

Lemma parsed_names_length macroArgs n : length (parsed_names macroArgs n) = n.
Proof.
  unfold parsed_names. destruct (0 <? n); [|by rewrite length_replicate].
  by destruct (scanArgs_total macroArgs n) as (st & -> & ? & _).
Qed.

Lemma parsed_names_view_in macroArgs n :
  Forall (view_in macroArgs) (parsed_names macroArgs n).
Proof.
  unfold parsed_names.
  destruct (0 <? n); [|apply Forall_replicate, null_view_in].
  by destruct (scanArgs_total macroArgs n) as (st & -> & _ & ?).
Qed.

(** What [makeDescription] returns and what it leaves in the world, for
    every input on which [code] is not dereferenced while null. *)
Lemma makeDescription_run style code errorNumber macroArgs argValues w :
  ~ (style = SYSCALL /\ code = None) ->
  makeDescription strerror_r FILE__ style code errorNumber macroArgs argValues w
  = Returned
      (description_text strerror_r style code errorNumber macroArgs argValues)
      (mkWorld (active w)
               (parse_sink FILE__ macroArgs (length argValues) (sink w))).
Proof.
  intros Hdef. unfold makeDescription.
  unfold mbind at 1, M_bind at 1. rewrite parse_names_run.
  set (names := parsed_names macroArgs (length argValues)).
  set (w' := mkWorld _ _).
  assert (Hfill : forall st' ca se,
    (match fill_pass st' ca se macroArgs names argValues
             (heapString (sizing_pass st' ca se macroArgs names argValues))
     with Some result => mret (chars result) | None => undefined end) w'
    = Returned (head_text st' ca se ++ args_text st' macroArgs names 0 argValues) w').
  { intros st' ca se.
    destruct (fill_pass_ok st' ca se macroArgs names argValues)
      as (b & -> & _ & _ & ->); [apply parsed_names_view_in|done]. }
  unfold description_text. fold names.
  destruct style, code as [c|]; try (by exfalso; apply Hdef);
    unfold preprocess_code, mbind, M_bind, mret, M_ret; simpl;
    rewrite Hfill; simpl; by rewrite <- ?(assoc_L (++)).
Qed.

Lemma makeDescription_null_syscall errorNumber macroArgs argValues w :
  makeDescription strerror_r FILE__ SYSCALL None errorNumber macroArgs argValues w
  = Undefined.
Proof.
  unfold makeDescription.
  unfold mbind at 1, M_bind at 1. by rewrite parse_names_run.
Qed.

(** The texts of the names the scanner found for [n] values. *)
Lemma description_args_spec style macroArgs argValues :
  args_text style macroArgs (parsed_names macroArgs (length argValues)) 0
            argValues
  = spec_args (negb (style_eqb style LOG))
      (zip (span_text macroArgs <$> parsed_names macroArgs (length argValues))
           argValues).
Proof.
  apply args_text_spec;
    [apply parsed_names_view_in|apply parsed_names_length].
Qed.

(** C10: for the names lines 57-100 produce and whatever style, code text
    and error text lines 102-137 arrive at, the fill pass run on the string
    allocated with the size the sizing pass computed never writes past its
    end (no [fill] is refused) and stops with the cursor exactly at that
    size, which is the length of the string: it is filled completely. *)
Theorem sizing_pass_equals_fill_pass
    (style : DescriptionStyle) (codeArray sysErrorArray : String)
    (macroArgs : cstr) (argValues : list String) (w : World) :
  exists argNames w' result,
    parse_names FILE__ macroArgs (length argValues) w = Returned argNames w'
    /\ fill_pass style codeArray sysErrorArray macroArgs argNames argValues
         (heapString (sizing_pass style codeArray sysErrorArray macroArgs
                                  argNames argValues))
       = Some result
    /\ cursor result
       = sizing_pass style codeArray sysErrorArray macroArgs argNames argValues
    /\ length (chars result)
       = sizing_pass style codeArray sysErrorArray macroArgs argNames argValues
    /\ chars result
       = head_text style codeArray sysErrorArray
         ++ args_text style macroArgs argNames 0 argValues.
Proof.
  rewrite parse_names_run.
  destruct (fill_pass_ok style codeArray sysErrorArray macroArgs
              (parsed_names macroArgs (length argValues)) argValues)
    as (b & Hfill & Hcur & Hlen & Htext); [apply parsed_names_view_in|].
  by eexists _, _, b.
Qed.

(** C5: ASSERTION style with a null code builds exactly what LOG style
    builds from the same argument text and values, in the same world:
    no "expected " prefix, no separator before the first argument. *)
Theorem assertion_without_code_is_log
    (errorNumber errorNumber' : Z) (code' : option cstr)
    (macroArgs : cstr) (argValues : list String) (w : World) :
  makeDescription strerror_r FILE__ ASSERTION None errorNumber
                  macroArgs argValues w
  = makeDescription strerror_r FILE__ LOG code' errorNumber'
                    macroArgs argValues w
  /\ makeDescription strerror_r FILE__ ASSERTION None errorNumber
                     macroArgs argValues w
     = Returned
         (spec_args false
            (zip (span_text macroArgs
                    <$> parsed_names macroArgs (length argValues))
                 argValues))
         (mkWorld (active w)
                  (parse_sink FILE__ macroArgs (length argValues) (sink w)))
  /\ makeDescription strerror_r FILE__ ASSERTION None errorNumber
                     (lit "x") [lit "5"] w
     = Returned (lit "x = 5") w.
Proof.
  rewrite !makeDescription_run by (intros [? ?]; discriminate).
  split_and!; [by destruct code'| |by destruct w].
  unfold description_text. by rewrite description_args_spec.
Qed.

Lemma parsed_names_untouched macroArgs n i :
  segments_parsed macroArgs n <= i -> i < n ->
  parsed_names macroArgs n !! i = Some nullArrayPtr.
Proof.
  unfold segments_parsed, parsed_names. intros Hi Hn.
  destruct (Nat.ltb_spec 0 n); [|lia].
  destruct (scanArgs_total macroArgs n) as (st & E & _). rewrite E in *.
  simpl in *. by apply (scanArgs_untouched _ _ _ E).
Qed.

(** C3, as the code has it: every argument is rendered from the text of
    its parsed name as [name = value] exactly when that name is non-empty
    and does not start with a double quote, and as [value] alone
    otherwise ([spec_rendered]); the rendered arguments are joined with
    "; " ([spec_args]).  The first argument has no separator before it for
    LOG and for ASSERTION with a null code; it has one, as every other
    argument, for ASSERTION with a code and for SYSCALL, where it follows
    the head. *)
Theorem arguments_rendered_and_joined
    (code : cstr) (code' : option cstr) (errorNumber : Z)
    (macroArgs : cstr) (argValues : list String) (w : World) :
  let named_values :=
    zip (span_text macroArgs <$> parsed_names macroArgs (length argValues))
        argValues in
  let w' := mkWorld (active w)
              (parse_sink FILE__ macroArgs (length argValues) (sink w)) in
  makeDescription strerror_r FILE__ LOG code' errorNumber macroArgs argValues w
  = Returned (spec_args false named_values) w'
  /\ makeDescription strerror_r FILE__ ASSERTION None errorNumber
                     macroArgs argValues w
     = Returned (spec_args false named_values) w'
  /\ makeDescription strerror_r FILE__ ASSERTION (Some code) errorNumber
                     macroArgs argValues w
     = Returned (lit "expected " ++ StringPtr code
                   ++ spec_args true named_values) w'
  /\ makeDescription strerror_r FILE__ SYSCALL (Some code) errorNumber
                     macroArgs argValues w
     = Returned (StringPtr (strip_assignment code) ++ lit ": "
                   ++ StringPtr (strerror_r errorNumber)
                   ++ spec_args true named_values) w'
  /\ makeDescription strerror_r FILE__ LOG code' errorNumber
                     (lit "x, y") [lit "1"; lit "2"] w
     = Returned (lit "x = 1; y = 2") w
  /\ makeDescription strerror_r FILE__ ASSERTION (Some (lit "x > 0"))
                     errorNumber (lit "x") [lit "5"] w
     = Returned (lit "expected x > 0; x = 5") w.
Proof.
  intros named_values w'.
  rewrite !makeDescription_run by (intros [? ?]; discriminate).
  unfold description_text. rewrite !description_args_spec.
  split_and!; try done; destruct w; by vm_compute.
Qed.

(** C4, as the code has it: for SYSCALL style the head is the
    pre-processed code, then ": ", then the platform's text for the error
    number.  The pre-processing looks at the first [=] of the code text
    wherever it is, nested or not: when there is none, or when it is
    directly followed by another [=], the code is kept whole; otherwise
    everything up to and including it is dropped, and then the whitespace
    that follows ([first_equals_strip]). *)
Theorem syscall_head_strips_first_equals
    (code : cstr) (errorNumber : Z) (macroArgs : cstr)
    (argValues : list String) (w : World) :
  first_equals_strip code (strip_assignment code)
  /\ (forall stripped,
        first_equals_strip code stripped -> stripped = strip_assignment code)
  /\ makeDescription strerror_r FILE__ SYSCALL (Some code) errorNumber
                     macroArgs argValues w
     = Returned
         (StringPtr (strip_assignment code) ++ lit ": "
            ++ StringPtr (strerror_r errorNumber)
            ++ spec_args true
                 (zip (span_text macroArgs
                         <$> parsed_names macroArgs (length argValues))
                      argValues))
         (mkWorld (active w)
            (parse_sink FILE__ macroArgs (length argValues) (sink w)))
  /\ makeDescription strerror_r FILE__ SYSCALL
                     (Some (lit "n = read(fd, buf, len)")) errorNumber
                     (lit "") [] w
     = Returned (lit "read(fd, buf, len): "
                   ++ StringPtr (strerror_r errorNumber)) w.
Proof.
  split_and!.
  - apply strip_assignment_spec.
  - intros stripped H.
    exact (first_equals_strip_functional _ _ _ H (strip_assignment_spec code)).
  - rewrite makeDescription_run by (intros [? ?]; discriminate).
    unfold description_text. by rewrite description_args_spec.
  - rewrite makeDescription_run by (intros [? ?]; discriminate).
    unfold description_text. destruct w. simpl.
    by rewrite app_nil_r.
Qed.

Lemma parsed_names_spec macroArgs n :
  0 < n ->
  segments_parsed macroArgs n = length (spec_segments macroArgs)
  /\ span_text macroArgs <$> parsed_names macroArgs n
     = names_for n (spec_segments macroArgs).
Proof.
  intros Hn. destruct (scanArgs_spec macroArgs n) as (st & E & Hi & Hnames).
  unfold segments_parsed, parsed_names. rewrite E.
  by destruct (Nat.ltb_spec 0 n); [|lia].
Qed.

Lemma names_for_length n segments : length (names_for n segments) = n.
Proof. unfold names_for. by rewrite length_fmap, length_seq. Qed.

Lemma names_for_lookup n segments i :
  i < n -> names_for n segments !! i = Some (default [] (segments !! i)).
Proof.
  intros Hi. unfold names_for. rewrite list_lookup_fmap.
  by rewrite lookup_seq_lt by done.
Qed.

(** C6: when there are values and the macro text - split at its commas
    outside parentheses and quotes - has a number of segments other than
    the number of values, [makeDescription] still returns; the terminal sink
    receives exactly one more message, which names the file and line of the
    check, the number of values and the raw macro text; the values are
    rendered with the segments of the text as their names, in order, and
    every value beyond the last segment has the empty name, so that it is
    rendered alone.  (With no values nothing is scanned: there is no segment
    and no mismatch.) *)
Theorem parse_mismatch_is_reported_and_tolerated
    (style : DescriptionStyle) (code : option cstr) (errorNumber : Z)
    (macroArgs : cstr) (argValues : list String) (w : World) :
  0 < length argValues ->
  length (spec_segments macroArgs) <> length argValues ->
  ~ (style = SYSCALL /\ code = None) ->
  let names := names_for (length argValues) (spec_segments macroArgs) in
  let head :=
    match style, code with
    | ASSERTION, Some c => lit "expected " ++ StringPtr c
    | SYSCALL, Some c =>
        StringPtr (strip_assignment c) ++ lit ": "
          ++ StringPtr (strerror_r errorNumber)
    | _, _ => []
    end in
  let lead :=
    match style, code with
    | ASSERTION, Some _ | SYSCALL, Some _ => true
    | _, _ => false
    end in
  makeDescription strerror_r FILE__ style code errorNumber
                  macroArgs argValues w
  = Returned
      (head ++ spec_args lead (zip names argValues))
      (mkWorld (active w)
         (sink w ++
            [SinkLog (StringPtr FILE__ ++ lit ":" ++ lit "97"
               ++ lit ": Failed to parse logging macro args into "
               ++ lit (pretty (length argValues)) ++ lit " names: "
               ++ StringPtr macroArgs ++ [NEWLINE])]))
  /\ length names = length argValues
  /\ (forall i segment,
        i < length argValues ->
        spec_segments macroArgs !! i = Some segment ->
        names !! i = Some segment)
  /\ (forall i v,
        length (spec_segments macroArgs) <= i ->
        argValues !! i = Some v ->
        names !! i = Some [] /\ spec_rendered [] v = v).
Proof.
  intros Hn Hmis Hdef names head lead.
  destruct (parsed_names_spec macroArgs (length argValues) Hn)
    as [Hcount Hnames].
  rewrite makeDescription_run by done.
  assert (Hsink :
    parse_sink FILE__ macroArgs (length argValues) (sink w)
    = sink w ++
        [SinkLog (StringPtr FILE__ ++ lit ":" ++ lit "97"
           ++ lit ": Failed to parse logging macro args into "
           ++ lit (pretty (length argValues)) ++ lit " names: "
           ++ StringPtr macroArgs ++ [NEWLINE])]).
  { unfold parse_sink. rewrite Hcount.
    by destruct (Nat.eqb_spec (length (spec_segments macroArgs))
                              (length argValues)). }
  rewrite Hsink. clear Hsink.
  split_and!.
  - unfold description_text. rewrite !description_args_spec, Hnames.
    fold names. subst head lead.
    destruct style, code as [c|]; try (by exfalso; apply Hdef);
      by rewrite <- ?(assoc_L (++)).
  - apply names_for_length.
  - intros i segment Hi Hseg. subst names.
    by rewrite names_for_lookup, Hseg.
  - intros i v Hi Hv. split; [|done]. subst names.
    rewrite names_for_lookup by by eapply lookup_lt_Some.
    by rewrite lookup_ge_None_2.
Qed.

(** ** Callbacks, faults and contexts *)

Lemma parse_sink_logs macroArgs n calls :
  exists logs, parse_sink FILE__ macroArgs n calls = calls ++ logs
               /\ Forall is_log logs.
Proof.
  unfold parse_sink. destruct (_ =? _).
  - exists []. by rewrite app_nil_r.
  - eexists. split; [done|]. by repeat constructor.
Qed.

Lemma annotate_sink_logs infos : forall calls,
  exists logs, annotate_sink FILE__ infos calls = calls ++ logs
               /\ Forall is_log logs.
Proof.
  induction infos as [|info infos IH]; intros calls; simpl.
  - exists []. by rewrite app_nil_r.
  - destruct (parse_sink_logs (ctx_macroArgs info)
                (length (ctx_argValues info)) calls) as (l1 & -> & H1).
    destruct (IH (calls ++ l1)) as (l2 & -> & H2).
    exists (l1 ++ l2). split; [by rewrite (assoc_L (++))|].
    by apply Forall_app.
Qed.

Lemma addTo_run info e w :
  addTo strerror_r FILE__ info e w
  = Returned
      (wrapContext e (ctx_file info) (ctx_line info)
         (description_text strerror_r LOG None 0 (ctx_macroArgs info)
                           (ctx_argValues info)))
      (mkWorld (active w)
         (parse_sink FILE__ (ctx_macroArgs info)
                     (length (ctx_argValues info)) (sink w))).
Proof.
  unfold addTo, addContextToInternal, mbind, M_bind.
  by rewrite makeDescription_run by (intros [? ?]; discriminate).
Qed.

(** An exception handed to a callback reaches the terminal sink once, as
    recoverable, with the annotation of every context of the chain. *)
Lemma onRecoverableException_run cb : forall e w,
  onRecoverableException strerror_r FILE__ cb e w
  = Returned tt
      (mkWorld (active w)
         (annotate_sink FILE__ (chain_infos cb) (sink w)
            ++ [SinkRecoverable (annotate strerror_r (chain_infos cb) e)])).
Proof.
  induction cb as [|next IH info]; intros e w; [done|].
  cbn [onRecoverableException]. unfold mbind, M_bind.
  by rewrite addTo_run, IH.
Qed.

Lemma onFatalException_run cb : forall e w,
  onFatalException strerror_r FILE__ cb e w
  = Returned tt
      (mkWorld (active w)
         (annotate_sink FILE__ (chain_infos cb) (sink w)
            ++ [SinkFatal (annotate strerror_r (chain_infos cb) e)])).
Proof.
  induction cb as [|next IH info]; intros e w; [done|].
  cbn [onFatalException]. unfold mbind, M_bind.
  by rewrite addTo_run, IH.
Qed.

(** C7: the destructor of a [Fault] that still holds its exception makes
    one call, [onRecoverableException] on the active callback, with that
    exception; the terminal sink then holds exactly one more recoverable
    exception (and no more fatal one), namely the held exception with the
    annotations of the chain.  The destructor of a [Fault] whose pointer is
    null leaves the world as it is. *)
Theorem fault_destructor_forwards_once (e : Exception) (w : World) :
  (exists w',
      Fault_destroy strerror_r FILE__ (mkFault (Some e)) w = Returned tt w'
      /\ Fault_destroy strerror_r FILE__ (mkFault (Some e)) w
         = onRecoverableException strerror_r FILE__ (active w) e w
      /\ active w' = active w
      /\ (exists logs,
            sink w'
            = sink w ++ logs
                ++ [SinkRecoverable
                      (annotate strerror_r (chain_infos (active w)) e)]
            /\ Forall is_log logs)
      /\ recoverable_count (sink w') = S (recoverable_count (sink w))
      /\ fatal_count (sink w') = fatal_count (sink w))
  /\ Fault_destroy strerror_r FILE__ (mkFault None) w = Returned tt w.
Proof.
  split; [|done].
  unfold Fault_destroy, mbind, M_bind, getExceptionCallback. simpl.
  rewrite onRecoverableException_run.
  destruct (annotate_sink_logs (chain_infos (active w)) (sink w))
    as (logs & -> & Hlogs).
  destruct (logs_count logs Hlogs) as [Hr Hf].
  eexists. split; [done|]. simpl. split_and!; [done|done| | |].
  - exists logs. by rewrite <- (assoc_L (++)).
  - rewrite !recoverable_count_app, Hr. unfold recoverable_count. simpl. lia.
  - rewrite !fatal_count_app, Hf. unfold fatal_count. simpl. lia.
Qed.

(** C8: [fatal()] on a [Fault] that holds its exception makes one call,
    [onFatalException] on the active callback, with that exception, and
    then the process is terminated: the terminal sink holds exactly one
    more fatal exception, and the outcome is [Aborted].  Whatever the
    [Fault], [fatal()] never returns. *)
Theorem fatal_forwards_once_and_aborts (e : Exception) (w : World) :
  (exists w',
      Fault_fatal strerror_r FILE__ (mkFault (Some e)) w = Aborted w'
      /\ onFatalException strerror_r FILE__ (active w) e w = Returned tt w'
      /\ active w' = active w
      /\ (exists logs,
            sink w'
            = sink w ++ logs
                ++ [SinkFatal (annotate strerror_r (chain_infos (active w)) e)]
            /\ Forall is_log logs)
      /\ fatal_count (sink w') = S (fatal_count (sink w))
      /\ recoverable_count (sink w') = recoverable_count (sink w))
  /\ (forall f a w1, Fault_fatal strerror_r FILE__ f w <> Returned a w1).
Proof.
  split.
  - unfold Fault_fatal, mbind, M_bind, getExceptionCallback. simpl.
    rewrite onFatalException_run.
    destruct (annotate_sink_logs (chain_infos (active w)) (sink w))
      as (logs & -> & Hlogs).
    destruct (logs_count logs Hlogs) as [Hr Hf].
    eexists. split; [done|]. simpl. split_and!; [done|done| | |].
    + exists logs. by rewrite <- (assoc_L (++)).
    + rewrite !fatal_count_app, Hf. unfold fatal_count. simpl. lia.
    + rewrite !recoverable_count_app, Hr. unfold recoverable_count. simpl. lia.
  - intros [[e'|]] a w1; [|done].
    unfold Fault_fatal, mbind, M_bind, getExceptionCallback. simpl.
    by rewrite onFatalException_run.
Qed.

(** C9: a [Context] constructed in world [w] holds the callback active in
    [w] as its successor (and becomes the active callback).  Handed an
    exception, as recoverable or as fatal, it first appends its annotation
    (its file, its line, the LOG-style description built from its macro
    text and values) and then hands the annotated exception to that
    successor; handed a log message, it hands the same text to that
    successor. *)
Theorem context_annotates_then_forwards (info : ContextInfo) (w : World) :
  let node := ContextNode (active w) info in
  let annotation :=
    mkAnnotation (ctx_file info) (ctx_line info)
      (description_text strerror_r LOG None 0 (ctx_macroArgs info)
                        (ctx_argValues info)) in
  let annotated e :=
    mkException (nature e) (durability e) (exc_file e) (exc_line e)
                (description e) (context e ++ [annotation]) in
  let after_addTo w1 :=
    mkWorld (active w1)
      (parse_sink FILE__ (ctx_macroArgs info)
                  (length (ctx_argValues info)) (sink w1)) in
  Context_new info w = Returned node (mkWorld node (sink w))
  /\ (forall e w1,
        addTo strerror_r FILE__ info e w1
        = Returned (annotated e) (after_addTo w1))
  /\ (forall e w1,
        onRecoverableException strerror_r FILE__ node e w1
        = onRecoverableException strerror_r FILE__ (active w)
            (annotated e) (after_addTo w1))
  /\ (forall e w1,
        onFatalException strerror_r FILE__ node e w1
        = onFatalException strerror_r FILE__ (active w)
            (annotated e) (after_addTo w1))
  /\ (forall text w1, logMessage node text w1 = logMessage (active w) text w1).
Proof.
  intros node annotation annotated after_addTo.
  split_and!; try done.
  - intros e w1. apply addTo_run.
  - intros e w1. subst node. cbn [onRecoverableException].
    unfold mbind, M_bind. by rewrite addTo_run.
  - intros e w1. subst node. cbn [onFatalException].
    unfold mbind, M_bind. by rewrite addTo_run.
Qed.

End LoggingProperties.

(** * Worked examples and counterexamples *)

Lemma parse_mismatch_witness :
  let names := names_for 2 (spec_segments (lit "x, y, z")) in
  makeDescription sample_strerror_r sample_FILE ASSERTION
                  (Some (lit "x > 0")) 0 (lit "x, y, z")
                  [lit "1"; lit "2"] root_world
  = Returned
      ((lit "expected " ++ StringPtr (lit "x > 0"))
         ++ spec_args true (zip names [lit "1"; lit "2"]))
      (mkWorld RootSink
         ([] ++
            [SinkLog (StringPtr sample_FILE ++ lit ":" ++ lit "97"
               ++ lit ": Failed to parse logging macro args into "
               ++ lit (pretty 2) ++ lit " names: "
               ++ StringPtr (lit "x, y, z") ++ [NEWLINE])]))
  /\ length names = 2
  /\ (forall i segment,
        i < 2 ->
        spec_segments (lit "x, y, z") !! i = Some segment ->
        names !! i = Some segment)
  /\ (forall i v,
        length (spec_segments (lit "x, y, z")) <= i ->
        [lit "1"; lit "2"] !! i = Some v ->
        names !! i = Some [] /\ spec_rendered [] v = v).
Proof.
  apply (parse_mismatch_is_reported_and_tolerated
           sample_strerror_r sample_FILE ASSERTION (Some (lit "x > 0")) 0
           (lit "x, y, z") [lit "1"; lit "2"] root_world).
  - simpl. lia.
  - vm_compute. lia.
  - intros [? ?]; discriminate.
Defined.

(** With one name for two values the second value is rendered alone. *)
Example parse_mismatch_example :
  makeDescription sample_strerror_r sample_FILE LOG None 0
                  (lit "x") [lit "1"; lit "2"] root_world
  = Returned (lit "x = 1; 2")
      (mkWorld RootSink
         [SinkLog (lit "src/kj/logging.c++:97: Failed to parse logging macro args into 2 names: x" ++ [NEWLINE])]).
Proof. by vm_compute. Qed.

(** With three segments for two values the first two name the values and
    the mismatch is reported. *)
Example parse_surplus_example :
  makeDescription sample_strerror_r sample_FILE LOG None 0
                  (lit "x, y, z") [lit "1"; lit "2"] root_world
  = Returned (lit "x = 1; y = 2")
      (mkWorld RootSink
         [SinkLog (lit "src/kj/logging.c++:97: Failed to parse logging macro args into 2 names: x, y, z" ++ [NEWLINE])]).
Proof. by vm_compute. Qed.

(** C3 as stated fails: ASSERTION style with a null code puts no separator
    before the first argument, so the text is not some head followed by the
    arguments each preceded by "; ". *)
Lemma first_separator_counterexample :
  makeDescription sample_strerror_r sample_FILE ASSERTION None 0
                  (lit "x") [lit "5"] root_world
  = Returned (lit "x = 5") root_world
  /\ ~ exists head,
        lit "x = 5"
        = head ++ spec_args (lead_by_style ASSERTION)
                    (zip (span_text (lit "x") <$> parsed_names (lit "x") 1)
                         [lit "5"]).
Proof.
  split; [by vm_compute|]. intros [head H].
  apply (f_equal length) in H. rewrite length_app in H.
  change (5 = length head + 7) in H. lia.
Qed.

(** C4 as stated fails: the only [=] of "f(a = 1)" is nested, so the rule
    of the specification strips nothing, while the code keeps what follows
    that [=]. *)
Lemma nested_equals_counterexample :
  makeDescription sample_strerror_r sample_FILE SYSCALL
                  (Some (lit "f(a = 1)")) EBADF (lit "") [] root_world
  = Returned (lit "1): Bad file descriptor") root_world
  /\ spec_strip (lit "f(a = 1)") = lit "f(a = 1)"
  /\ lit "1): Bad file descriptor"
     <> StringPtr (spec_strip (lit "f(a = 1)")) ++ lit ": "
          ++ StringPtr (sample_strerror_r EBADF).
Proof. split_and!; by vm_compute. Qed.

Lemma plain_expressions_witness :
  segments_parsed (join_commas [lit "  a"; lit " b + 1 "; lit "c"]) 3 = 3
  /\ length (parsed_names (join_commas [lit "  a"; lit " b + 1 "; lit "c"]) 3)
     = 3
  /\ span_text (join_commas [lit "  a"; lit " b + 1 "; lit "c"])
       <$> parsed_names (join_commas [lit "  a"; lit " b + 1 "; lit "c"]) 3
     = ltrim <$> [lit "  a"; lit " b + 1 "; lit "c"].
Proof.
  apply (plain_expressions_are_left_trimmed
           [lit "  a"; lit " b + 1 "; lit "c"]).
  repeat constructor.
Defined.

(** C2 as stated fails: the name of "a " keeps its trailing blank. *)
Lemma trailing_whitespace_counterexample :
  join_commas [lit "a "; lit " b"] = lit "a , b"
  /\ Forall (Forall (fun c => plain c = true)) [lit "a "; lit " b"]
  /\ span_text (lit "a , b") <$> parsed_names (lit "a , b") 2
     = [lit "a "; lit "b"]
  /\ trim <$> [lit "a "; lit " b"] = [lit "a"; lit "b"]
  /\ span_text (lit "a , b") <$> parsed_names (lit "a , b") 2
     <> trim <$> [lit "a "; lit " b"].
Proof.
  split_and!; [done|repeat constructor|by vm_compute|by vm_compute|].
  by vm_compute.
Qed.


Lemma syscall_head_witness :
  first_equals_strip (lit "n = read(fd, buf, len)") (lit "read(fd, buf, len)")
  /\ makeDescription sample_strerror_r sample_FILE SYSCALL
                     (Some (lit "n = read(fd, buf, len)")) EBADF
                     (lit "") [] root_world
     = Returned (lit "read(fd, buf, len): Bad file descriptor") root_world.
Proof.
  destruct (syscall_head_strips_first_equals
              sample_strerror_r sample_FILE (lit "n = read(fd, buf, len)")
              EBADF (lit "") [] root_world) as (Hrel & Huniq & _ & Hrun).
  split; [exact Hrel|exact Hrun].
Defined.

Lemma comma_splits_witness :
  index (scan_body (lit "a,b") 2 COMMA
           (mkScan 0 0 2 0 false [nullArrayPtr; nullArrayPtr])) = 1
  /\ index (scan_body (lit "(a,b)") 1 COMMA
              (mkScan 0 0 3 1 false [nullArrayPtr])) = 0
  /\ (exists st,
        scanArgs (lit "f" ++ LPAREN :: lit "a, b" ++ [RPAREN]) 1 = Some st
        /\ index st = 1
        /\ names_text (lit "f" ++ LPAREN :: lit "a, b" ++ [RPAREN]) st
           = [ltrim (lit "f" ++ LPAREN :: lit "a, b" ++ [RPAREN])]).
Proof.
  destruct (comma_splits_at_depth_zero_outside_quotes (lit "a,b") 2)
    as (Hiff & _).
  destruct (comma_splits_at_depth_zero_outside_quotes (lit "(a,b)") 1)
    as (_ & Hno & _ & _ & Hparens & _).
  split_and!.
  - by apply Hiff.
  - apply Hno. intros (_ & ? & _). discriminate.
  - apply Hparens; repeat constructor.
Defined.

(** * Further properties of the code *)

(** ** The segments tile the macro text *)

Lemma StringPtr_cons c s :
  StringPtr (c :: s) = if ch_eqb c NUL then [] else c :: StringPtr s.
Proof. unfold StringPtr. simpl. by destruct (ch_eqb c NUL). Qed.

Lemma segments_from_nonempty d q cur rest : segments_from d q cur rest <> [].
Proof.
  remember (length rest) as k eqn:Hk. revert d q cur rest Hk.
  induction k as [k IH] using lt_wf_ind. intros d q cur rest Hk.
  destruct rest as [|c rest]; [done|]. cbn [segments_from].
  destruct (ch_eqb c NUL); [done|].
  destruct q.
  - destruct (ch_eqb c BACKSLASH).
    + destruct rest as [|c' rest]; [done|].
      destruct (ch_eqb c' NUL); [done|].
      apply (IH (length rest)); [simpl in Hk; lia|done].
    + apply (IH (length rest)); [simpl in Hk; lia|done].
  - repeat (match goal with |- context [if ?b then _ else _] =>
              destruct b end); try done;
      apply (IH (length rest)); (simpl in Hk; lia) || done.
Qed.

Lemma join_commas_cons e es :
  es <> [] -> join_commas (e :: es) = e ++ COMMA :: join_commas es.
Proof. by destruct es. Qed.

Lemma join_segments d q cur rest :
  join_commas (segments_from d q cur rest) = cur ++ StringPtr rest.
Proof.
  remember (length rest) as k eqn:Hk. revert d q cur rest Hk.
  induction k as [k IH] using lt_wf_ind. intros d q cur rest Hk.
  destruct rest as [|c rest]; [by rewrite app_nil_r|].
  cbn [segments_from]. rewrite StringPtr_cons.
  destruct (ch_eqb c NUL) eqn:N; [by rewrite app_nil_r|].
  assert (Hstep : forall d' q',
    join_commas (segments_from d' q' (cur ++ [c]) rest)
    = cur ++ c :: StringPtr rest).
  { intros d' q'. rewrite (IH (length rest)) by (simpl in Hk; lia || done).
    by rewrite <- (assoc_L (++)). }
  destruct q.
  - destruct (ch_eqb c BACKSLASH); [|apply Hstep].
    destruct rest as [|c' rest]; [done|]. rewrite StringPtr_cons.
    destruct (ch_eqb c' NUL); [done|].
    rewrite (IH (length rest)) by (simpl in Hk; lia || done).
    by rewrite <- (assoc_L (++)).
  - destruct (ch_eqb c LPAREN); [apply Hstep|].
    destruct (ch_eqb c RPAREN); [apply Hstep|].
    destruct (ch_eqb c DQUOTE); [apply Hstep|].
    destruct (ch_eqb c COMMA && (d =? 0)%Z) eqn:CM; [|apply Hstep].
    apply andb_prop in CM as [CM _]. apply ch_eqb_eq in CM as ->.
    rewrite join_commas_cons by apply segments_from_nonempty.
    by rewrite (IH (length rest)) by (simpl in Hk; lia || done).
Qed.

Lemma count_commas_app a b :
  count_commas (a ++ b) = count_commas a + count_commas b.
Proof. apply count_occ_app. Qed.

Lemma count_commas_join es :
  es <> [] -> length es <= S (count_commas (join_commas es)).
Proof.
  induction es as [|e es IH]; [done|]. intros _.
  destruct es as [|e' es]; [simpl; lia|].
  rewrite join_commas_cons by done.
  rewrite count_commas_app. unfold count_commas at 2.
  cbn [count_occ]. destruct (ascii_dec COMMA COMMA); [|done].
  fold (count_commas (join_commas (e' :: es))).
  specialize (IH ltac:(done)). simpl in *. lia.
Qed.

(** X1: whatever the macro text, the names the scanner stores are, in
    order, the first [n] of the pieces between its split points, each
    without its leading whitespace; these pieces written one after the
    other with a comma between them are the macro text up to its
    terminator, and the scanner counts exactly these pieces.  Nothing of
    the text is dropped but commas and whitespace after a split. *)
Theorem names_tile_the_macro_text (s : cstr) (n : nat) :
  exists st pieces,
    scanArgs s n = Some st
    /\ join_commas pieces = StringPtr s
    /\ index st = length pieces
    /\ names_text s st = names_for n (ltrim <$> pieces).
Proof.
  destruct (scanArgs_spec s n) as (st & E & Hi & Hn).
  exists st, (segments_from 0 false [] s). unfold spec_segments in *.
  rewrite length_fmap in Hi. split_and!; [done| |done|done].
  by rewrite join_segments.
Qed.

(** X2: when there are values, the scanner counts at least one segment and
    at most one more than there are commas before the terminator of the
    macro text; with fewer commas than values less one, the count falls
    short of the number of values. *)
Theorem segment_count_bounds (s : cstr) (n : nat) :
  0 < n ->
  1 <= segments_parsed s n <= S (count_commas (StringPtr s))
  /\ (S (count_commas (StringPtr s)) < n -> segments_parsed s n <> n).
Proof.
  intros Hn. destruct (scanArgs_spec s n) as (st & E & Hi & _).
  rewrite (segments_parsed_scan s n st Hn E), Hi.
  unfold spec_segments. rewrite length_fmap.
  pose proof (segments_from_nonempty 0 false [] s) as Hne.
  pose proof (count_commas_join _ Hne) as Hc. rewrite join_segments in Hc.
  simpl in Hc.
  destruct (segments_from 0 false [] s) as [|x l]; [done|]. simpl in *.
  split; lia.
Qed.

(** ** Where the names lie in the macro text *)

Lemma store_name_ordered n st e limit :
  length (argNames st) = n ->
  views_ordered (argNames st) (index st) (start st) ->
  start st <= e -> e < limit ->
  views_ordered (store_name n st e) (S (index st)) limit.
Proof.
  intros Hlen [Hend Hord] Hs He. unfold store_name.
  destruct (Nat.ltb_spec (index st) n) as [Hlt|Hge].
  - split.
    + intros i a Hi Ha. destruct (decide (i = index st)) as [->|Hne].
      * apply list_lookup_insert_Some in Ha as [(_ & <- & _)|(? & _)];
          [|done]. unfold arrayPtr; simpl. lia.
      * rewrite list_lookup_insert_ne in Ha by done.
        specialize (Hend i a ltac:(lia) Ha). lia.
    + intros i j a b Hij Hj Ha Hb.
      rewrite list_lookup_insert_ne in Ha by lia.
      destruct (decide (j = index st)) as [->|Hne].
      * apply list_lookup_insert_Some in Hb as [(_ & <- & _)|(? & _)];
          [|done]. simpl. by apply (Hend i).
      * rewrite list_lookup_insert_ne in Hb by done.
        apply (Hord i j); (done || lia).
  - split.
    + intros i a Hi Ha. destruct (decide (i = index st)) as [->|Hne].
      * apply lookup_lt_Some in Ha. lia.
      * specialize (Hend i a ltac:(lia) Ha). lia.
    + intros i j a b Hij Hj Ha Hb.
      destruct (decide (j = index st)) as [->|Hne].
      * apply lookup_lt_Some in Hb. lia.
      * apply (Hord i j); (done || lia).
Qed.

Lemma scan_init_ordered s n :
  views_ordered (argNames (scan_init s n)) (index (scan_init s n))
                (start (scan_init s n)).
Proof. split; simpl; intros; lia. Qed.

Lemma scan_body_ordered s n st :
  scan_inv s n st ->
  views_ordered (argNames st) (index st) (start st) ->
  deref s (pos st) <> NUL ->
  let st2 := scan_body s n (deref s (pos st)) (set_pos st (S (pos st))) in
  views_ordered (argNames st2) (index st2) (start st2).
Proof.
  intros (Hsp & Hpl & Hlen & Hv) Hord Hc. unfold scan_body. simpl.
  destruct (quoted st);
    repeat (match goal with |- context [if ?b then _ else _] =>
              destruct b end); try exact Hord.
  simpl. rewrite Nat.sub_0_r.
  pose proof (deref_upto_strlen _ _ Hpl Hc).
  pose proof (skip_space_bounds s (S (pos st))).
  apply (store_name_ordered n (set_pos st (S (pos st)))); simpl;
    (done || lia).
Qed.

Lemma scan_loop_ordered s n fuel : forall st st',
  scan_inv s n st ->
  views_ordered (argNames st) (index st) (start st) ->
  scan_loop fuel s n st = Some st' ->
  views_ordered (argNames st') (index st') (start st')
  /\ start st' < pos st' /\ length (argNames st') = n.
Proof.
  induction fuel as [|fuel IH]; intros st st' Hinv Hord; [done|].
  cbn [scan_loop]. destruct (ch_eqb (deref s (pos st)) NUL) eqn:E.
  - intros [= <-]. destruct Hinv as (Hsp & Hpl & Hlen & Hv). simpl.
    split_and!; [done|lia|done].
  - apply ch_eqb_neq in E. apply IH.
    + by apply scan_body_inv.
    + by apply scan_body_ordered.
Qed.

Lemma ltrim_head e c t : ltrim e = c :: t -> isspace c = false.
Proof.
  induction e as [|x e IH]; [done|]. simpl.
  destruct (isspace x) eqn:E; [done|]. by intros [= <- _].
Qed.

(** X3: the views the scanner leaves in [argNames] all lie inside the macro
    text, before its terminator; those of the segments it counted come one
    after the other in the text, each ending before the next begins; and
    none that holds characters starts with whitespace. *)
Theorem names_are_ordered_slices (s : cstr) (n : nat) :
  exists st,
    scanArgs s n = Some st
    /\ length (argNames st) = n
    /\ (forall a, a ∈ argNames st -> ptr a + size_ a <= strlen s)
    /\ (forall i j a b,
          i < j -> j < index st ->
          argNames st !! i = Some a -> argNames st !! j = Some b ->
          ptr a + size_ a < ptr b)
    /\ (forall a, a ∈ argNames st -> 0 < size_ a ->
          isspace (deref s (ptr a)) = false).
Proof.
  destruct (scanArgs_total s n) as (st & E & Hlen & Hv).
  destruct (scanArgs_spec s n) as (st' & E' & _ & Hn).
  rewrite E in E'. injection E' as <-.
  exists st. split_and!; [done|done| | |].
  - intros a Ha. by apply (proj1 (Forall_forall _ _) Hv).
  - unfold scanArgs in E.
    destruct (scan_loop _ _ _ _) as [st1|] eqn:Hloop; [|done].
    injection E as <-.
    destruct (scan_loop_ordered s n _ _ _ (scan_init_inv s n)
                (scan_init_ordered s n) Hloop) as (Hord & Hsp & Hl).
    unfold scan_finish. cbn [index argNames].
    apply (store_name_ordered n st1 (pos st1 - 1) (pos st1)); (done || lia).
  - intros a Ha Hsz.
    apply list_elem_of_lookup in Ha as [i Ha].
    assert (Ht : names_text s st !! i = Some (span_text s a)).
    { unfold names_text. by rewrite list_lookup_fmap, Ha. }
    rewrite Hn in Ht. unfold names_for in Ht.
    rewrite list_lookup_fmap in Ht.
    destruct (seq 0 n !! i) as [k|]; [|done]. simpl in Ht.
    injection Ht as Ht. unfold spec_segments in Ht.
    rewrite list_lookup_fmap in Ht.
    assert (Hin : view_in s a)
      by (apply (proj1 (Forall_forall _ _) Hv); by eapply list_elem_of_lookup_2).
    pose proof (span_text_length s a Hin) as Hl.
    destruct (span_text s a) as [|c t] eqn:Hspan; [simpl in Hl; lia|].
    assert (c = deref s (ptr a)) as <-.
    { unfold span_text in Hspan. pose proof (strlen_le s).
      unfold view_in in Hin.
      destruct (drop (ptr a) s) as [|c' t'] eqn:Hd.
      - by rewrite take_nil in Hspan.
      - destruct (size_ a); [lia|]. simpl in Hspan. injection Hspan as -> _.
        rewrite <- (Nat.add_0_r (ptr a)), <- deref_drop. by rewrite Hd. }
    destruct (segments_from 0 false [] s !! k) as [seg|]; [|done].
    simpl in Ht. by apply (ltrim_head seg c t).
Qed.

(** ** Unbalanced texts *)


Lemma scanArgs_single s n seg :
  segments_from 0 false [] s = [seg] ->
  exists st, scanArgs s n = Some st /\ index st = 1
             /\ names_text s st = names_for n [ltrim seg].
Proof.
  intros Hseg. destruct (scanArgs_spec s n) as (st & E & Hi & Hn).
  unfold spec_segments in *. rewrite Hseg in *. by exists st.
Qed.

(** X4: a closing parenthesis that closes nothing takes the 32-bit depth
    counter from 0 to 2^32 - 1, so that no later comma splits while the text
    holds no further parenthesis or quote: the whole text is one segment,
    whatever the number of values. *)
Theorem unmatched_close_stops_splitting (f rest : String) (n : nat) :
  Forall (fun c => plain c = true) f ->
  Forall (fun c => inside_parens c = true) rest ->
  exists st,
    scanArgs (f ++ RPAREN :: rest) n = Some st
    /\ index st = 1
    /\ names_text (f ++ RPAREN :: rest) st
       = names_for n [ltrim (f ++ RPAREN :: rest)].
Proof.
  intros Hf Hrest. apply scanArgs_single.
  rewrite segments_from_plain by done. cbn [segments_from app].
  change (ch_eqb RPAREN NUL) with false.
  change (ch_eqb RPAREN LPAREN) with false.
  change (ch_eqb RPAREN RPAREN) with true. cbn iota.
  rewrite <- (app_nil_r rest) at 1.
  rewrite segments_from_inside_parens by (done || by vm_compute).
  cbn [segments_from]. by rewrite <- (assoc_L (++)).
Qed.

(** X5: a quote that is never closed keeps the scanner in quoted mode to the
    terminator: the commas after it do not split, and the whole text is one segment,
    whatever the number of values. *)
Theorem unclosed_quote_stops_splitting (f inner : String) (n : nat) :
  Forall (fun c => plain c = true) f ->
  Forall (fun c => inside_quotes c = true) inner ->
  exists st,
    scanArgs (f ++ DQUOTE :: inner) n = Some st
    /\ index st = 1
    /\ names_text (f ++ DQUOTE :: inner) st
       = names_for n [ltrim (f ++ DQUOTE :: inner)].
Proof.
  intros Hf Hin. apply scanArgs_single.
  rewrite segments_from_plain by done. cbn [segments_from app].
  change (ch_eqb DQUOTE NUL) with false.
  change (ch_eqb DQUOTE LPAREN) with false.
  change (ch_eqb DQUOTE RPAREN) with false.
  change (ch_eqb DQUOTE DQUOTE) with true. cbn iota.
  rewrite <- (app_nil_r inner) at 1.
  rewrite segments_from_inside_quotes by done.
  cbn [segments_from]. by rewrite <- (assoc_L (++)).
Qed.

Lemma unmatched_close_witness :
  exists st,
    scanArgs (lit "a" ++ RPAREN :: lit ", b") 2 = Some st
    /\ index st = 1
    /\ names_text (lit "a" ++ RPAREN :: lit ", b") st
       = names_for 2 [ltrim (lit "a" ++ RPAREN :: lit ", b")].
Proof.
  apply (unmatched_close_stops_splitting (lit "a") (lit ", b") 2);
    repeat constructor.
Defined.

Lemma unclosed_quote_witness :
  exists st,
    scanArgs (lit "a" ++ DQUOTE :: lit "b, c") 2 = Some st
    /\ index st = 1
    /\ names_text (lit "a" ++ DQUOTE :: lit "b, c") st
       = names_for 2 [ltrim (lit "a" ++ DQUOTE :: lit "b, c")].
Proof.
  apply (unclosed_quote_stops_splitting (lit "a") (lit "b, c") 2);
    repeat constructor.
Defined.

(** ** Severities and log lines *)

Lemma KJ_STRINGIFY_defined severity :
  exists name, KJ_STRINGIFY severity = Some name
               /\ name <> [] /\ COLON ∉ name.
Proof.
  destruct severity; eexists; (split; [reflexivity|]); (split; [done|]);
    vm_compute; intros H;
    repeat (apply elem_of_cons in H as [H|H]; [discriminate H|]);
    by apply elem_of_nil in H.
Qed.

Lemma KJ_STRINGIFY_inj a b : KJ_STRINGIFY a = KJ_STRINGIFY b -> a = b.
Proof. by destruct a, b; vm_compute; intros H; try discriminate H. Qed.

(** X9: every severity indexes inside the table of names, and the names
    are pairwise different, not empty, and free of colons; so the severity
    can be read back from the start of a line that begins with its name and
    a colon. *)
Theorem severity_names_distinct :
  (forall severity,
      exists name, KJ_STRINGIFY severity = Some name
                   /\ name <> [] /\ COLON ∉ name)
  /\ (forall a b, KJ_STRINGIFY a = KJ_STRINGIFY b -> a = b)
  /\ (forall a b na nb ra rb,
        KJ_STRINGIFY a = Some na -> KJ_STRINGIFY b = Some nb ->
        na ++ COLON :: ra = nb ++ COLON :: rb -> a = b).
Proof.
  split_and!; [apply KJ_STRINGIFY_defined|apply KJ_STRINGIFY_inj|].
  intros a b na nb ra rb Ha Hb E.
  destruct (KJ_STRINGIFY_defined a) as (na' & Ha' & _ & Hca).
  destruct (KJ_STRINGIFY_defined b) as (nb' & Hb' & _ & Hcb).
  rewrite Ha in Ha'. rewrite Hb in Hb'.
  injection Ha' as <-. injection Hb' as <-.
  destruct (first_occurrence_unique _ _ _ _ _ E Hca Hcb) as [-> _].
  apply KJ_STRINGIFY_inj. by rewrite Ha, Hb.
Qed.

(** ** String literals with escapes *)

Lemma segments_from_literal_body d cur body rest :
  literal_body body ->
  segments_from d true cur (body ++ rest)
  = segments_from d true (cur ++ body) rest.
Proof.
  intros H. revert cur. induction H as [|c body Hc _ IH|c body Hc _ IH];
    intros cur.
  - by rewrite app_nil_r.
  - unfold inside_quotes in Hc. apply negb_true_iff in Hc.
    repeat (apply orb_false_elim in Hc as [Hc ?]).
    cbn [app segments_from]. rewrite Hc.
    repeat match goal with H : ch_eqb c _ = false |- _ => rewrite H; clear H end.
    cbn [negb]. rewrite IH. by rewrite <- (assoc_L (++)).
  - cbn [app]. rewrite segments_from_escape by done.
    rewrite IH. by rewrite <- (assoc_L (++)).
Qed.

Lemma names_for_cons n segment segments :
  names_for (S n) (segment :: segments) = segment :: names_for n segments.
Proof.
  unfold names_for. cbn [seq fmap list_fmap lookup list_lookup default].
  f_equal. rewrite <- fmap_S_seq, <- list_fmap_compose. done.
Qed.

(** X16: a string literal is one segment and is stored whole as a name,
    whatever commas, parentheses and backslash escapes - escaped quotes
    among them - stand between its quotes.  Its closing quote ends quoted
    mode: when a comma and more text follow, the scanner splits at that
    comma, stores the literal as the first name, and goes on to count and
    store for the remaining values exactly what it counts and stores when
    run on the remaining text alone. *)
Theorem string_literal_is_one_segment (body : String) (n : nat) :
  literal_body body ->
  (exists st,
      scanArgs (DQUOTE :: body ++ [DQUOTE]) n = Some st
      /\ index st = 1
      /\ names_text (DQUOTE :: body ++ [DQUOTE]) st
         = names_for n [DQUOTE :: body ++ [DQUOTE]])
  /\ (forall rest,
        exists st st',
          scanArgs (DQUOTE :: body ++ DQUOTE :: COMMA :: rest) (S n) = Some st
          /\ scanArgs rest n = Some st'
          /\ index st = S (index st')
          /\ names_text (DQUOTE :: body ++ DQUOTE :: COMMA :: rest) st
             = (DQUOTE :: body ++ [DQUOTE]) :: names_text rest st').
Proof.
  intros Hbody.
  assert (Hseg : forall rest,
    segments_from 0 false [] (DQUOTE :: body ++ DQUOTE :: rest)
    = segments_from 0 false (DQUOTE :: body ++ [DQUOTE]) rest).
  { intros rest. cbn [segments_from].
    change (ch_eqb DQUOTE NUL) with false.
    change (ch_eqb DQUOTE LPAREN) with false.
    change (ch_eqb DQUOTE RPAREN) with false.
    change (ch_eqb DQUOTE DQUOTE) with true. cbn iota.
    rewrite segments_from_literal_body by done. cbn [segments_from].
    change (ch_eqb DQUOTE NUL) with false.
    change (ch_eqb DQUOTE BACKSLASH) with false.
    change (ch_eqb DQUOTE DQUOTE) with true. cbn [negb].
    by rewrite <- (assoc_L (++)). }
  split.
  - apply (scanArgs_single _ n (DQUOTE :: body ++ [DQUOTE])).
    by rewrite Hseg.
  - intros rest.
    assert (Hsplit :
      spec_segments (DQUOTE :: body ++ DQUOTE :: COMMA :: rest)
      = (DQUOTE :: body ++ [DQUOTE]) :: spec_segments rest).
    { unfold spec_segments. rewrite Hseg. cbn [segments_from].
      change (ch_eqb COMMA NUL) with false.
      change (ch_eqb COMMA LPAREN) with false.
      change (ch_eqb COMMA RPAREN) with false.
      change (ch_eqb COMMA DQUOTE) with false.
      change (ch_eqb COMMA COMMA && (0 =? 0)%Z) with true. cbn iota.
      done. }
    destruct (scanArgs_spec (DQUOTE :: body ++ DQUOTE :: COMMA :: rest) (S n))
      as (st & E & Hi & Hn).
    destruct (scanArgs_spec rest n) as (st' & E' & Hi' & Hn').
    exists st, st'. rewrite Hsplit in Hi, Hn.
    split_and!; [done|done| |].
    + rewrite Hi, Hi'. done.
    + by rewrite Hn, Hn', names_for_cons.
Qed.

(** ** The builder, faults and contexts *)

Section FurtherProperties.

Variable strerror_r : Z -> cstr.
Variable FILE__ : cstr.

(** X6: with no values the macro text is never looked at: whatever it
    holds, nothing reaches the sink and the description is the head of its
    style alone - empty for LOG and for ASSERTION without code. *)
Theorem no_values_no_scan
    (code : cstr) (code' : option cstr) (errorNumber : Z) (macroArgs : cstr)
    (w : World) :
  makeDescription strerror_r FILE__ LOG code' errorNumber macroArgs [] w
  = Returned [] w
  /\ makeDescription strerror_r FILE__ ASSERTION None errorNumber macroArgs [] w
     = Returned [] w
  /\ makeDescription strerror_r FILE__ ASSERTION (Some code) errorNumber
                     macroArgs [] w
     = Returned (lit "expected " ++ StringPtr code) w
  /\ makeDescription strerror_r FILE__ SYSCALL (Some code) errorNumber
                     macroArgs [] w
     = Returned (StringPtr (strip_assignment code) ++ lit ": "
                   ++ StringPtr (strerror_r errorNumber)) w.
Proof.
  rewrite !makeDescription_run by (intros [? ?]; discriminate).
  unfold description_text, parse_sink, segments_parsed. cbn [length args_text].
  destruct w. rewrite ?app_nil_r. by destruct code'.
Qed.

(** X7: [makeDescription] never terminates the process, and has no defined
    behaviour exactly for SYSCALL style with a null code.  Otherwise it
    returns, leaves the active callback as it was, and hands the terminal
    sink nothing or one log message - never an exception. *)
Theorem makeDescription_effects
    (style : DescriptionStyle) (code : option cstr) (errorNumber : Z)
    (macroArgs : cstr) (argValues : list String) (w : World) :
  match makeDescription strerror_r FILE__ style code errorNumber
                        macroArgs argValues w with
  | Returned text w' =>
      ~ (style = SYSCALL /\ code = None)
      /\ active w' = active w
      /\ (sink w' = sink w \/ exists msg, sink w' = sink w ++ [SinkLog msg])
  | Aborted _ => False
  | Undefined => style = SYSCALL /\ code = None
  end.
Proof.
  assert (Hrun : ~ (style = SYSCALL /\ code = None) ->
    match makeDescription strerror_r FILE__ style code errorNumber
                          macroArgs argValues w with
    | Returned text w' =>
        ~ (style = SYSCALL /\ code = None)
        /\ active w' = active w
        /\ (sink w' = sink w \/ exists msg, sink w' = sink w ++ [SinkLog msg])
    | Aborted _ => False
    | Undefined => style = SYSCALL /\ code = None
    end).
  { intros Hdef. rewrite makeDescription_run by done.
    split_and!; [done|done|]. simpl. unfold parse_sink.
    destruct (_ =? _); [by left|right; eauto]. }
  destruct style, code as [c|];
    try (apply Hrun; intros [? ?]; discriminate).
  by rewrite makeDescription_null_syscall.
Qed.

(** ** Log lines *)

(** X10: [logInternal] returns for every severity - it does not compare
    with [minSeverity] - and hands the terminal sink, through whatever
    contexts are active, exactly one line: the name of the severity, the
    file, the line number in decimal, the LOG-style description and a
    newline.  If the macro text does not match the values, the message that
    says so reaches the sink before that line.  The severity can be read
    back from the line. *)
Theorem logInternal_writes_one_line
    (file : cstr) (line : Z) (severity : Severity)
    (macroArgs : cstr) (argValues : list String) (w : World) :
  exists name,
    KJ_STRINGIFY severity = Some name
    /\ logInternal strerror_r FILE__ file line severity macroArgs argValues w
       = Returned tt
           (mkWorld (active w)
              (parse_sink FILE__ macroArgs (length argValues) (sink w)
                 ++ [SinkLog
                       (name ++ lit ": " ++ StringPtr file ++ lit ":"
                          ++ lit (pretty line) ++ lit ": "
                          ++ description_text strerror_r LOG None 0
                               macroArgs argValues
                          ++ [NEWLINE])]))
    /\ (forall severity' name' rest rest',
          KJ_STRINGIFY severity' = Some name' ->
          name ++ lit ": " ++ rest = name' ++ lit ": " ++ rest' ->
          severity' = severity).
Proof.
  destruct (KJ_STRINGIFY_defined severity) as (name & Hname & _ & Hcolon).
  exists name. split_and!; [done| |].
  - unfold logInternal, mbind, M_bind, getExceptionCallback.
    rewrite makeDescription_run by (intros [? ?]; discriminate).
    rewrite Hname. by rewrite logMessage_run.
  - intros severity' name' rest rest' Hname' E.
    destruct (KJ_STRINGIFY_defined severity') as (n' & Hn' & _ & Hcolon').
    rewrite Hname' in Hn'. injection Hn' as <-.
    change (lit ": " ++ rest) with (COLON :: lit " " ++ rest) in E.
    change (lit ": " ++ rest') with (COLON :: lit " " ++ rest') in E.
    destruct (first_occurrence_unique _ _ _ _ _ E Hcolon Hcolon') as [<- _].
    apply KJ_STRINGIFY_inj. by rewrite Hname, Hname'.
Qed.

(** X13: contexts are transparent to log messages: handed to any callback,
    a message reaches the terminal sink once and unchanged, as if handed to
    the sink itself, and two messages arrive in the order they were sent. *)
Theorem log_messages_pass_every_context
    (cb cb' : Callback) (text text' : String) (w : World) :
  logMessage cb text w = logMessage RootSink text w
  /\ (_ <- logMessage cb text; logMessage cb' text') w
     = Returned tt (mkWorld (active w)
                      (sink w ++ [SinkLog text; SinkLog text'])).
Proof.
  unfold mbind, M_bind. rewrite !logMessage_run. simpl.
  split; [done|]. by rewrite <- (assoc_L (++)).
Qed.

(** ** Annotations *)

Lemma annotate_fields infos : forall e,
  nature (annotate strerror_r infos e) = nature e
  /\ durability (annotate strerror_r infos e) = durability e
  /\ exc_file (annotate strerror_r infos e) = exc_file e
  /\ exc_line (annotate strerror_r infos e) = exc_line e
  /\ description (annotate strerror_r infos e) = description e
  /\ context (annotate strerror_r infos e)
     = context e ++ (annotation_of strerror_r <$> infos).
Proof.
  induction infos as [|info infos IH]; intros e.
  - simpl. by rewrite app_nil_r.
  - cbn [annotate fmap list_fmap].
    destruct (IH (wrapContext e (ctx_file info) (ctx_line info)
                    (description_text strerror_r LOG None 0
                       (ctx_macroArgs info) (ctx_argValues info))))
      as (H1 & H2 & H3 & H4 & H5 & H6).
    rewrite H1, H2, H3, H4, H5, H6. unfold wrapContext, annotation_of.
    cbn [nature durability exc_file exc_line description context].
    by rewrite <- (assoc_L (++)).
Qed.

(** X14: an exception handed to a chain of contexts, as recoverable or as
    fatal, reaches the terminal sink last of all that the call produces,
    with its nature, durability, origin and description untouched and its
    annotations kept; the annotations of the contexts are appended after
    them, the innermost context first. *)
Theorem contexts_append_in_chain_order
    (cb : Callback) (e : Exception) (w : World) :
  exists e' w1 w2,
    onRecoverableException strerror_r FILE__ cb e w = Returned tt w1
    /\ last (sink w1) = Some (SinkRecoverable e')
    /\ onFatalException strerror_r FILE__ cb e w = Returned tt w2
    /\ last (sink w2) = Some (SinkFatal e')
    /\ nature e' = nature e /\ durability e' = durability e
    /\ exc_file e' = exc_file e /\ exc_line e' = exc_line e
    /\ description e' = description e
    /\ context e'
       = context e ++ (annotation_of strerror_r <$> chain_infos cb).
Proof.
  destruct (annotate_fields (chain_infos cb) e) as (? & ? & ? & ? & ? & ?).
  eexists _, _, _.
  rewrite onRecoverableException_run, onFatalException_run.
  split_and!; [done|apply last_snoc|done|apply last_snoc|done..].
Qed.

(** X15: contexts nest: after one context and then a second are
    constructed, the second is the active callback and the first its
    successor, and a fault destroyed then reaches the terminal sink
    annotated by the second context first, by the first next, and then by
    the contexts that were active before. *)
Theorem nested_contexts_annotate_inner_first
    (info1 info2 : ContextInfo) (e : Exception) (w : World) :
  exists w' e',
    (c1 <- Context_new info1;
     c2 <- Context_new info2;
     Fault_destroy strerror_r FILE__ (mkFault (Some e))) w
    = Returned tt w'
    /\ active w' = ContextNode (ContextNode (active w) info1) info2
    /\ last (sink w') = Some (SinkRecoverable e')
    /\ description e' = description e
    /\ context e'
       = context e
           ++ annotation_of strerror_r info2 :: annotation_of strerror_r info1
           :: (annotation_of strerror_r <$> chain_infos (active w)).
Proof.
  unfold Context_new, Fault_destroy, mbind, M_bind, mret, M_ret,
    getExceptionCallback, setExceptionCallback.
  cbn [active sink exception].
  rewrite onRecoverableException_run. cbn [active sink chain_infos].
  set (chain := info2 :: info1 :: chain_infos (active w)).
  destruct (annotate_fields chain e) as (_ & _ & _ & _ & Hd & Hc).
  eexists _, _. split; [reflexivity|]. cbn [active sink].
  split_and!; [done|apply last_snoc|exact Hd|exact Hc].
Qed.

(** ** Faults from construction to destruction *)

(** X12: [init] builds a fault that holds an exception of the given nature
    and origin, PERMANENT, without annotations, described in SYSCALL style
    for an OS error and in ASSERTION style otherwise; destroying that fault
    hands the terminal sink exactly one more recoverable exception, that
    one with the annotations of the active contexts, and [fatal()] on it
    hands over the same exception as fatal and terminates the process.  An OS error with a
    null condition has no defined behaviour: its code text is searched for
    [=] without a null check. *)
Theorem initialised_fault_reports_once
    (file : cstr) (line : Z) (nature_ : Nature) (errorNumber : Z)
    (condition : option cstr) (macroArgs : cstr) (argValues : list String)
    (w : World) :
  (~ (nature_ = OS_ERROR /\ condition = None) ->
   let style := match nature_ with OS_ERROR => SYSCALL | _ => ASSERTION end in
   let e := mkException nature_ PERMANENT file line
              (description_text strerror_r style condition errorNumber
                                macroArgs argValues) [] in
   exists w1 w2,
     Fault_init strerror_r FILE__ file line nature_ errorNumber condition
                macroArgs argValues w
     = Returned (mkFault (Some e)) w1
     /\ active w1 = active w
     /\ sink w1 = parse_sink FILE__ macroArgs (length argValues) (sink w)
     /\ Fault_destroy strerror_r FILE__ (mkFault (Some e)) w1 = Returned tt w2
     /\ last (sink w2)
        = Some (SinkRecoverable
                  (annotate strerror_r (chain_infos (active w)) e))
     /\ recoverable_count (sink w2) = S (recoverable_count (sink w))
     /\ fatal_count (sink w2) = fatal_count (sink w)
     /\ exists w3,
          Fault_fatal strerror_r FILE__ (mkFault (Some e)) w1 = Aborted w3
          /\ last (sink w3)
             = Some (SinkFatal
                       (annotate strerror_r (chain_infos (active w)) e)))
  /\ Fault_init strerror_r FILE__ file line OS_ERROR errorNumber None
                macroArgs argValues w
     = Undefined.
Proof.
  split.
  - intros Hdef style e.
    assert (Hstyle : ~ (style = SYSCALL /\ condition = None)).
    { intros [Hs ->]. apply Hdef. split; [|done].
      subst style. by destruct nature_. }
    destruct (parse_sink_logs FILE__ macroArgs (length argValues) (sink w))
      as (l1 & E1 & H1).
    destruct (annotate_sink_logs FILE__ (chain_infos (active w)) (sink w ++ l1))
      as (l2 & E2 & H2).
    destruct (logs_count l1 H1) as [Hr1 Hf1].
    destruct (logs_count l2 H2) as [Hr2 Hf2].
    exists (mkWorld (active w)
              (parse_sink FILE__ macroArgs (length argValues) (sink w))).
    eexists. split_and!.
    + unfold Fault_init, mbind, M_bind, mret, M_ret. fold style.
      by rewrite makeDescription_run by done.
    + done.
    + done.
    + unfold Fault_destroy, mbind, M_bind, getExceptionCallback.
      cbn [exception active]. apply onRecoverableException_run.
    + apply last_snoc.
    + cbn [sink]. rewrite E1, E2, !recoverable_count_app, Hr1, Hr2.
      unfold recoverable_count. simpl. lia.
    + cbn [sink]. rewrite E1, E2, !fatal_count_app, Hf1, Hf2.
      unfold fatal_count. simpl. lia.
    + eexists. split.
      * unfold Fault_fatal, mbind, M_bind, getExceptionCallback, abort.
        cbn [exception active]. by rewrite onFatalException_run.
      * apply last_snoc.
  - unfold Fault_init, mbind, M_bind.
    by rewrite makeDescription_null_syscall.
Qed.

End FurtherProperties.

(** ** The platform's error text and the interrupted call *)

(** X8: the platform's error text and the error number matter to SYSCALL
    style only: for LOG and for ASSERTION the description and what reaches
    the sink are the same whatever [strerror_r] answers and whatever error
    number is passed. *)
Theorem error_text_only_for_syscall
    (strerror_r strerror_r' : Z -> cstr) (FILE__ : cstr)
    (style : DescriptionStyle) (code : option cstr)
    (errorNumber errorNumber' : Z) (macroArgs : cstr)
    (argValues : list String) (w : World) :
  style <> SYSCALL ->
  makeDescription strerror_r FILE__ style code errorNumber
                  macroArgs argValues w
  = makeDescription strerror_r' FILE__ style code errorNumber'
                    macroArgs argValues w.
Proof.
  intros Hs. rewrite !makeDescription_run by (by intros [? _]).
  f_equal. unfold description_text. by destruct style, code.
Qed.

Lemma error_text_witness :
  makeDescription sample_strerror_r sample_FILE ASSERTION
                  (Some (lit "x > 0")) EBADF (lit "x") [lit "5"] root_world
  = makeDescription (fun _ => lit "?") sample_FILE ASSERTION
                    (Some (lit "x > 0")) 0 (lit "x") [lit "5"] root_world.
Proof.
  apply (error_text_only_for_syscall sample_strerror_r (fun _ => lit "?")
           sample_FILE ASSERTION (Some (lit "x > 0")) EBADF 0%Z
           (lit "x") [lit "5"] root_world).
  discriminate.
Defined.

(** X11: on a platform whose [EINTR] is not -1, [getOsErrorNumber] never
    answers [EINTR]; it answers -1 exactly when [errno] is [EINTR] or -1
    itself, and [errno] unchanged otherwise; asked again about its own
    answer it gives the same answer. *)
Theorem getOsErrorNumber_hides_EINTR (EINTR errno : Z) :
  EINTR <> (-1)%Z ->
  getOsErrorNumber EINTR errno <> EINTR
  /\ (getOsErrorNumber EINTR errno = (-1)%Z
      <-> errno = EINTR \/ errno = (-1)%Z)
  /\ (errno <> EINTR -> getOsErrorNumber EINTR errno = errno)
  /\ getOsErrorNumber EINTR (getOsErrorNumber EINTR errno)
     = getOsErrorNumber EINTR errno.
Proof.
  intros HE. unfold getOsErrorNumber.
  destruct (Z.eqb_spec errno EINTR) as [->|Hne].
  - destruct (Z.eqb_spec (-1) EINTR) as [E|_]; [by symmetry in E|].
    split_and!; [by intros E; symmetry in E|by split; [left|]|done|done].
  - destruct (Z.eqb_spec errno EINTR) as [|_]; [done|].
    split_and!; [done| |done|done].
    split; [by right|]. by intros [?|?].
Qed.

Lemma getOsErrorNumber_witness :
  getOsErrorNumber 4 4 <> 4%Z
  /\ (getOsErrorNumber 4 4 = (-1)%Z <-> 4%Z = 4%Z \/ 4%Z = (-1)%Z)
  /\ (4%Z <> 4%Z -> getOsErrorNumber 4 4 = 4%Z)
  /\ getOsErrorNumber 4 (getOsErrorNumber 4 4) = getOsErrorNumber 4 4.
Proof. apply (getOsErrorNumber_hides_EINTR 4 4). discriminate. Defined.

(** ** Witnesses *)

Lemma segment_count_witness :
  1 <= segments_parsed (lit "f(a, b), c") 3
    <= S (count_commas (StringPtr (lit "f(a, b), c")))
  /\ (S (count_commas (StringPtr (lit "f(a, b), c"))) < 3 ->
      segments_parsed (lit "f(a, b), c") 3 <> 3).
Proof. apply (segment_count_bounds (lit "f(a, b), c") 3). lia. Defined.

Lemma string_literal_witness :
  (exists st,
      scanArgs (DQUOTE :: (lit "a" ++ BACKSLASH :: DQUOTE :: lit ",b")
                  ++ [DQUOTE]) 1 = Some st
      /\ index st = 1
      /\ names_text (DQUOTE :: (lit "a" ++ BACKSLASH :: DQUOTE :: lit ",b")
                       ++ [DQUOTE]) st
         = names_for 1 [DQUOTE :: (lit "a" ++ BACKSLASH :: DQUOTE :: lit ",b")
                          ++ [DQUOTE]])
  /\ (forall rest,
        exists st st',
          scanArgs (DQUOTE :: (lit "a" ++ BACKSLASH :: DQUOTE :: lit ",b")
                      ++ DQUOTE :: COMMA :: rest) 2 = Some st
          /\ scanArgs rest 1 = Some st'
          /\ index st = S (index st')
          /\ names_text (DQUOTE :: (lit "a" ++ BACKSLASH :: DQUOTE :: lit ",b")
                           ++ DQUOTE :: COMMA :: rest) st
             = (DQUOTE :: (lit "a" ++ BACKSLASH :: DQUOTE :: lit ",b")
                  ++ [DQUOTE]) :: names_text rest st').
Proof.
  apply (string_literal_is_one_segment
           (lit "a" ++ BACKSLASH :: DQUOTE :: lit ",b") 1).
  apply literal_char; [done|].
  apply literal_escape; [done|].
  repeat (apply literal_char; [done|]). apply literal_nil.
Defined.

(** The literal, a comma and one more argument: two names. *)
Example string_literal_then_argument :
  (fun st => (index st,
              names_text (DQUOTE :: lit "a,b" ++ DQUOTE :: lit ", c") st))
    <$> scanArgs (DQUOTE :: lit "a,b" ++ DQUOTE :: lit ", c") 2
  = Some (2, [DQUOTE :: lit "a,b" ++ [DQUOTE]; lit "c"]).
Proof. by vm_compute. Qed.

Lemma initialised_fault_witness :
  exists w1 w2,
    Fault_init sample_strerror_r sample_FILE (lit "main.c++") 7 OS_ERROR EBADF
               (Some (lit "n = read(fd)")) (lit "fd") [lit "3"] root_world
    = Returned
        (mkFault (Some (mkException OS_ERROR PERMANENT (lit "main.c++") 7
                          (lit "read(fd): Bad file descriptor; fd = 3") [])))
        w1
    /\ Fault_destroy sample_strerror_r sample_FILE
         (mkFault (Some (mkException OS_ERROR PERMANENT (lit "main.c++") 7
                           (lit "read(fd): Bad file descriptor; fd = 3") [])))
         w1
       = Returned tt w2
    /\ recoverable_count (sink w2) = 1.
Proof.
  destruct (initialised_fault_reports_once sample_strerror_r sample_FILE
              (lit "main.c++") 7 OS_ERROR EBADF (Some (lit "n = read(fd)"))
              (lit "fd") [lit "3"] root_world) as [H _].
  destruct H as (w1 & w2 & Hinit & _ & _ & Hdestroy & _ & Hcount & _).
  - intros [_ ?]. discriminate.
  - exists w1, w2. split_and!; [exact Hinit|exact Hdestroy|exact Hcount].
Defined.
